(** * Sparse ternary blind rotation: a shallow embedding of gpu-benchmark.cu

    The development follows the CUDA source top-down: the configuration
    macros, the device helper [unpack_trit], and the kernel
    [sparse_blind_rotation_kernel].  Machine integers are mathematical
    integers with their wrap-around written out; shared and global memory
    are lists updated by index. *)

From Stdlib Require Import ZArith Lia List Bool.
From stdpp Require Import base list.

Local Open Scope Z_scope.

(** ** Configuration macros *)

Definition N : Z := 2048.
Definition THREADS_PER_BLOCK : Z := 256.
Definition PACKING_FACTOR : Z := 16.

(** ** Fixed-width integers

    [uint32_t], [int], [int8_t] and [int64_t] values are integers reduced
    into the range of their type.  Conversions to a signed type and signed
    negation wrap (two's complement), which is what the device does. *)

Definition to_uint32 (z : Z) : Z := z mod 2 ^ 32.
Definition to_int8 (z : Z) : Z := (z + 2 ^ 7) mod 2 ^ 8 - 2 ^ 7.
Definition to_int32 (z : Z) : Z := (z + 2 ^ 31) mod 2 ^ 32 - 2 ^ 31.
Definition to_int64 (z : Z) : Z := (z + 2 ^ 63) mod 2 ^ 64 - 2 ^ 63.

Definition is_int64 (z : Z) : Prop := - 2 ^ 63 <= z < 2 ^ 63.

(** ** Device helper *)

(** [unpack_trit]: select the two bits of field [index], shift them down,
    and turn the stored 2 into -1.  Every other field value is returned as
    it is by the cast to [int8_t]. *)
Definition unpack_trit (packed_container index : Z) : Z :=
  let mask := to_uint32 (Z.shiftl 3 (index * 2)) in
  let extracted := Z.shiftr (Z.land packed_container mask) (index * 2) in
  if extracted =? 2 then -1 else to_int8 extracted.

(** The 2-bit code stored in field [index] of a packed word, read
    arithmetically: the word divided by [4 ^ index], modulo 4. *)
Definition trit_code (packed_container index : Z) : Z :=
  (packed_container / 4 ^ index) mod 4.

(** ** Memory

    Device arrays ([d_acc], [d_bk], [d_nonzero_indices], [d_lwe_a]) and the
    shared array [s_acc] are lists indexed by an [int].  The kernel performs
    no bounds check; an index outside the array is undefined behaviour in
    the source and reads 0 / writes nothing here. *)

Definition load (mem : list Z) (i : Z) : Z := mem !!! Z.to_nat i.
Definition store (mem : list Z) (i v : Z) : list Z := <[Z.to_nat i := v]> mem.

(** ** Launch configuration

    The kernel runs as one block of [blockDim_x] threads (the host launches
    it as [<<<1, 256, N*sizeof(int64_t)>>>]); [s_acc_init] is the content of
    the dynamically sized shared array when the block starts. *)

Record launch := Launch { blockDim_x : Z; s_acc_init : list Z }.

(** Thread indices [threadIdx.x] of the block. *)
Definition block_threads (blockDim : Z) : list Z :=
  map Z.of_nat (seq 0 (Z.to_nat blockDim)).

(** Every loop over the accumulator has the shape
    [for (int i = tid; i < N; i += blockDim.x)].  In round [k] of such a
    loop thread [tid] holds [i = tid + k * blockDim.x] and is in the loop
    when [i < N].  Thread 0 makes the most rounds, [ceil (N / blockDim.x)]. *)
Definition round_count (blockDim : Z) : nat :=
  Z.to_nat (N / blockDim + (if N mod blockDim =? 0 then 0 else 1)).

Definition round_indices (blockDim : Z) (k : nat) : list Z :=
  filter (fun i => i < N)
         (map (fun tid => tid + Z.of_nat k * blockDim) (block_threads blockDim)).

(** ** The rotation loop body

    What one thread holds in its registers for one value of [i]: the
    destination [i], the source index and the sign. *)
Record lane := Lane { lane_i : Z; lane_src_idx : Z; lane_sign : Z }.

Definition rotation_lane (rot i : Z) : lane :=
  let src_idx := i - rot in
  if src_idx <? 0 then Lane i (src_idx + N) (-1) else Lane i src_idx 1.

(** The part of the body before the first [__syncthreads()]: read the
    source element and negate it when the sign is -1. *)
Definition lane_new_val (s_acc : list Z) (l : lane) : Z :=
  let rotated_val := load s_acc (lane_src_idx l) in
  if lane_sign l =? -1 then to_int64 (- rotated_val) else rotated_val.

(** One round of the rotation loop over the whole block.  All threads
    compute [new_val] from the current content of [s_acc]; after the first
    barrier every thread stores its value at its own [i]; the second barrier
    ends the round.  Within a round the stores go to distinct indices, so
    taking the threads in index order loses nothing.  (With 256 threads and
    N = 2048 every thread makes the same 8 rounds, so all of them meet at
    each barrier.) *)
Definition rotation_round (rot blockDim : Z) (s_acc : list Z) (k : nat)
  : list Z :=
  let lanes := map (rotation_lane rot) (round_indices blockDim k) in
  let new_vals := map (lane_new_val s_acc) lanes in
  fold_left (fun s lv => store s (lane_i (fst lv)) (snd lv))
            (combine lanes new_vals) s_acc.

(** "Apply Rotation in Shared Memory": the rounds run one after the other
    on the same array. *)
Definition apply_rotation (blockDim rot : Z) (s_acc : list Z) : list Z :=
  fold_left (rotation_round rot blockDim) (seq 0 (round_count blockDim)) s_acc.

(** The array as the first [k] rounds of the rotation loop leave it. *)
Definition rounds_before (rot blockDim : Z) (s_acc : list Z) (k : nat)
  : list Z :=
  fold_left (rotation_round rot blockDim) (seq 0 k) s_acc.

(** ** One step of the sparse loop *)

(** "Unpack Key". *)
Definition step_key_trit (d_bk : list Z) (lwe_idx : Z) : Z :=
  let packed_idx := Z.quot lwe_idx PACKING_FACTOR in
  let bit_offset := Z.rem lwe_idx PACKING_FACTOR in
  let packed_key := load d_bk packed_idx in
  unpack_trit packed_key bit_offset.

(** The 64-bit amount selected by the key trit, before it is narrowed. *)
Definition signed_amount (s_i a_i : Z) : Z :=
  if s_i =? 1 then to_int64 (- a_i) else a_i.

(** "Rotation Logic": the selected amount is stored in an [int], reduced
    with the truncating [%], and lifted into [0, N). *)
Definition rotation_amount (s_i a_i : Z) : Z :=
  let rot := to_int32 (signed_amount s_i a_i) in
  let rot := Z.rem rot N in
  if rot <? 0 then rot + N else rot.

Definition blind_rotation_step (blockDim : Z)
    (d_bk d_nonzero_indices d_lwe_a : list Z) (s_acc : list Z) (step : nat)
  : list Z :=
  let lwe_idx := load d_nonzero_indices (Z.of_nat step) in
  let a_i := load d_lwe_a (Z.of_nat step) in
  let s_i := step_key_trit d_bk lwe_idx in
  let rot := rotation_amount s_i a_i in
  apply_rotation blockDim rot s_acc.

(** ** The kernel *)

(** The load and write-back loops: thread [tid] copies the elements
    [tid, tid + blockDim.x, ...] below [N]. *)
Definition copy_round (src : list Z) (blockDim : Z) (dst : list Z) (k : nat)
  : list Z :=
  fold_left (fun d i => store d i (load src i)) (round_indices blockDim k) dst.

Definition block_copy (blockDim : Z) (src dst : list Z) : list Z :=
  fold_left (copy_round src blockDim) (seq 0 (round_count blockDim)) dst.

(** The result is the content of [d_acc] when the kernel returns. *)
Definition sparse_blind_rotation_kernel (cfg : launch)
    (d_acc d_bk d_nonzero_indices d_lwe_a : list Z) (num_nonzero : Z)
  : list Z :=
  let s_acc := block_copy (blockDim_x cfg) d_acc (s_acc_init cfg) in
  let s_acc :=
    fold_left (blind_rotation_step (blockDim_x cfg) d_bk d_nonzero_indices d_lwe_a)
              (seq 0 (Z.to_nat num_nonzero)) s_acc in
  block_copy (blockDim_x cfg) s_acc d_acc.

(** The launch of the host harness, with zeroed shared memory. *)
Definition harness_launch : launch :=
  Launch THREADS_PER_BLOCK (repeat 0 (Z.to_nat N)).

(** ** Shared-memory accesses of one rotation

    The accesses to [s_acc] made by [apply_rotation], in the order the
    barriers impose: the reads of a round, a barrier, its writes, a
    barrier.  They are taken from the same lanes the rotation executes. *)
Inductive access := SRead (idx : Z) | SWrite (idx : Z) | SBarrier.

Definition round_trace (rot blockDim : Z) (k : nat) : list access :=
  let lanes := map (rotation_lane rot) (round_indices blockDim k) in
  map (fun l => SRead (lane_src_idx l)) lanes ++ [SBarrier]
  ++ map (fun l => SWrite (lane_i l)) lanes ++ [SBarrier].

Definition rotation_trace (blockDim rot : Z) : list access :=
  flat_map (round_trace rot blockDim) (seq 0 (round_count blockDim)).

(** The reads of a trace that come after a write to the same index:
    [written] collects the indices stored so far. *)
Fixpoint stale_reads (written : list Z) (t : list access) : list Z :=
  match t with
  | [] => []
  | SRead j :: t' =>
      if existsb (Z.eqb j) written then j :: stale_reads written t'
      else stale_reads written t'
  | SWrite j :: t' => stale_reads (j :: written) t'
  | SBarrier :: t' => stale_reads written t'
  end.

(** ** The rotation of the specification

    Position [i] of the new accumulator is the old value at
    [(i - rot) mod N], negated exactly when [i - rot] is below 0.  This
    follows the specification's wording and is what the kernel is compared
    with. *)
Definition negacyclic_rotation_spec (rot : Z) (old : list Z) : list Z :=
  map (fun i => let v := load old ((i - rot) mod N) in
                if i - rot <? 0 then - v else v)
      (map Z.of_nat (seq 0 (Z.to_nat N))).

(** The accumulator [0, 1, ..., N-1], used in the examples. *)
Definition iota_acc : list Z := map Z.of_nat (seq 0 (Z.to_nat N)).

(** ** The scalar library interface

    The C library behind [encode_trit], [decode_trit], [pack_trit_array]
    and [sparse_ternary_fma] is not part of the sources at hand; the
    definitions of this section follow the specification's description of
    that interface. *)

(** Modelled from the spec: [encode_trit] of the C library (its source file
    is missing).  The trits -1, 0, +1 map to the codes 2, 0, 1; any other
    value is rejected. *)
Definition encode_trit (value : Z) : option Z :=
  if value =? 0 then Some 0
  else if value =? 1 then Some 1
  else if value =? -1 then Some 2
  else None.

(** Modelled from the spec: [decode_trit] of the C library (its source file
    is missing).  The inverse mapping on the codes 0, 1, 2; the reserved
    code 3 is rejected. *)
Definition decode_trit (code : Z) : option Z :=
  if code =? 0 then Some 0
  else if code =? 1 then Some 1
  else if code =? 2 then Some (-1)
  else None.

(** Modelled from the spec: the packed layout of [pack_trit_array] (its
    source file is missing).  Four 2-bit codes per byte, the first trit in
    the lowest field, elements in order; a last partial byte is padded with
    code 0. *)
Fixpoint pack_codes (codes : list Z) : list Z :=
  match codes with
  | [] => []
  | c0 :: c1 :: c2 :: c3 :: rest =>
      (c0 + 4 * c1 + 16 * c2 + 64 * c3) :: pack_codes rest
  | [c0; c1; c2] => [c0 + 4 * c1 + 16 * c2]
  | [c0; c1] => [c0 + 4 * c1]
  | [c0] => [c0]
  end.

(** Modelled from the spec: [pack_trit_array] of the C library (its source
    file is missing): encode every trit, then pack the codes. *)
Definition pack_trit_array (trits : list Z) : option (list Z) :=
  match mapM encode_trit trits with
  | Some codes => Some (pack_codes codes)
  | None => None
  end.

(** The code of trit [i] in a packed buffer. *)
Definition packed_code (packed : list Z) (i : nat) : Z :=
  trit_code (load packed (Z.of_nat i / 4)) (Z.of_nat i mod 4).

(** Modelled from the spec: the 3-way conditional select of the dense
    scalar path: 0 writes 0, +1 copies [a], -1 copies [- a]; no product is
    computed. *)
Definition ternary_select (t a : Z) : Z :=
  if t =? 0 then 0 else if t =? 1 then a else - a.

Definition fma_element (A B_trit : list Z) (i : nat) : option Z :=
  match decode_trit (packed_code B_trit i) with
  | Some t => Some (ternary_select t (load A (Z.of_nat i)))
  | None => None
  end.

(** Modelled from the spec: [sparse_ternary_fma] of the C library (its
    source file is missing), on its dense scalar path: a packed buffer too
    small for [n] trits is rejected before any access, then every index
    below [n] is decoded and selected; a reserved code fails the call. *)
Definition sparse_ternary_fma (A B_trit : list Z) (n : nat)
  : option (list Z) :=
  if (4 * length B_trit <? n)%nat then None
  else mapM (fma_element A B_trit) (seq 0 n).

(** ** The host harness

    The data [main] sets up before it launches the kernel, and the launches
    themselves (one warm-up and 1000 timed ones, all on the same device
    buffers).  [rand i] stands for the value the i-th call of [rand()]
    returns, a non-negative [int]; printing and timing are left out. *)

Definition main_num_nonzero : Z := 128.
Definition lwe_dim : Z := 630.

Definition h_acc : list Z := replicate (Z.to_nat N) 1.

Definition h_bk : list Z :=
  replicate (Z.to_nat (Z.quot lwe_dim PACKING_FACTOR + 1)) 0xAAAAAAAA.

Definition h_indices : list Z :=
  map (fun i => Z.of_nat i * 2) (seq 0 (Z.to_nat main_num_nonzero)).

Definition h_lwe_a (rand : nat -> Z) : list Z :=
  map (fun i => Z.rem (rand i) N) (seq 0 (Z.to_nat main_num_nonzero)).

Definition launch_kernel (rand : nat -> Z) (d_acc : list Z) : list Z :=
  sparse_blind_rotation_kernel harness_launch d_acc h_bk h_indices
                               (h_lwe_a rand) main_num_nonzero.

(** [d_acc] after the first [launches] launches of [main]. *)
Definition main_launches (rand : nat -> Z) (launches : nat) : list Z :=
  Nat.iter launches (launch_kernel rand) h_acc.

(** [d_acc] when [main] frees it: after the warm-up and the 1000 timed
    launches. *)
Definition main_d_acc (rand : nat -> Z) : list Z :=
  main_launches rand (1 + 1000).

(** The key buffer read as one number: word [w] of the buffer holds the
    bits [32 * w] to [32 * w + 31]. *)
Fixpoint key_value (d_bk : list Z) : Z :=
  match d_bk with
  | [] => 0
  | word :: rest => word + 2 ^ 32 * key_value rest
  end.

(** ** Facts about the helper *)

Lemma to_uint32_small z : 0 <= z < 2 ^ 32 -> to_uint32 z = z.
Proof. intros H. unfold to_uint32. now apply Z.mod_small. Qed.

Lemma to_int8_small z : - 2 ^ 7 <= z < 2 ^ 7 -> to_int8 z = z.
Proof. intros H. unfold to_int8. rewrite Z.mod_small; lia. Qed.

Lemma field_mask_range index :
  0 <= index < PACKING_FACTOR -> 0 <= Z.shiftl 3 (index * 2) < 2 ^ 32.
Proof.
  unfold PACKING_FACTOR. intros H.
  rewrite Z.shiftl_mul_pow2 by lia.
  assert (0 < 2 ^ (index * 2)) by (apply Z.pow_pos_nonneg; lia).
  assert (2 ^ (index * 2) <= 2 ^ 30) by (apply Z.pow_le_mono_r; lia).
  lia.
Qed.

(** The masked-and-shifted field is the arithmetic code of that field. *)
Lemma extracted_is_trit_code packed_container index :
  0 <= index < PACKING_FACTOR ->
  Z.shiftr (Z.land packed_container (to_uint32 (Z.shiftl 3 (index * 2))))
           (index * 2)
  = trit_code packed_container index.
Proof.
  intros H. rewrite to_uint32_small by now apply field_mask_range.
  unfold PACKING_FACTOR in H.
  rewrite Z.shiftr_land, Z.shiftr_shiftl_l, Z.sub_diag, Z.shiftl_0_r by lia.
  change 3 with (Z.ones 2). rewrite Z.land_ones by lia.
  rewrite Z.shiftr_div_pow2 by lia.
  unfold trit_code. replace (index * 2) with (2 * index) by lia.
  rewrite Z.pow_mul_r by lia. reflexivity.
Qed.

Lemma trit_code_range packed_container index :
  0 <= trit_code packed_container index < 4.
Proof. unfold trit_code. apply Z.mod_pos_bound. lia. Qed.

Lemma unpack_trit_by_code packed_container index :
  0 <= index < PACKING_FACTOR ->
  unpack_trit packed_container index
  = if trit_code packed_container index =? 2 then -1
    else trit_code packed_container index.
Proof.
  intros H. unfold unpack_trit. cbv zeta.
  rewrite extracted_is_trit_code by assumption.
  pose proof (trit_code_range packed_container index).
  destruct (trit_code packed_container index =? 2); [reflexivity|].
  apply to_int8_small. lia.
Qed.

(** ** The canonical mapping and the reserved code *)

(** C6: for every packed word and every trit position of the word,
    [unpack_trit] follows the canonical mapping: the 2-bit code 0 decodes
    to 0, the code 1 to +1 and the code 2 to -1. *)
Theorem unpack_trit_canonical packed_container index :
  0 <= index < PACKING_FACTOR ->
  (trit_code packed_container index = 0 ->
   unpack_trit packed_container index = 0) /\
  (trit_code packed_container index = 1 ->
   unpack_trit packed_container index = 1) /\
  (trit_code packed_container index = 2 ->
   unpack_trit packed_container index = -1).
Proof.
  intros H. rewrite unpack_trit_by_code by assumption.
  repeat split; intros ->; reflexivity.
Qed.

Lemma unpack_trit_canonical_witness :
  0 <= 1 < PACKING_FACTOR /\
  trit_code 0x24 0 = 0 /\ trit_code 0x24 1 = 1 /\ trit_code 0x24 2 = 2 /\
  unpack_trit 0x24 0 = 0 /\ unpack_trit 0x24 1 = 1 /\ unpack_trit 0x24 2 = -1.
Proof.
  assert (H0 : 0 <= 0 < PACKING_FACTOR) by (unfold PACKING_FACTOR; lia).
  assert (H1 : 0 <= 1 < PACKING_FACTOR) by (unfold PACKING_FACTOR; lia).
  assert (H2 : 0 <= 2 < PACKING_FACTOR) by (unfold PACKING_FACTOR; lia).
  split; [exact H1|]. do 3 (split; [reflexivity|]).
  split; [|split].
  - exact (proj1 (unpack_trit_canonical 0x24 0 H0) eq_refl).
  - exact (proj1 (proj2 (unpack_trit_canonical 0x24 1 H1)) eq_refl).
  - exact (proj2 (proj2 (unpack_trit_canonical 0x24 2 H2)) eq_refl).
Defined.

(** C3, as the code has it: [unpack_trit] has no error result.  A field
    holding the reserved code 3 decodes to the integer 3, which is none of
    the trits -1, 0 and +1. *)
Theorem unpack_trit_reserved_code packed_container index :
  0 <= index < PACKING_FACTOR ->
  trit_code packed_container index = 3 ->
  unpack_trit packed_container index = 3.
Proof.
  intros H H3. rewrite unpack_trit_by_code by assumption.
  rewrite H3. reflexivity.
Qed.

Lemma unpack_trit_reserved_code_witness :
  0 <= 15 < PACKING_FACTOR /\ trit_code 0xFFFFFFFF 15 = 3 /\
  unpack_trit 0xFFFFFFFF 15 = 3.
Proof.
  split; [unfold PACKING_FACTOR; lia|]. split; [reflexivity|].
  apply (unpack_trit_reserved_code 0xFFFFFFFF 15);
    [unfold PACKING_FACTOR; lia | reflexivity].
Defined.

(** ** The rotation amount *)

Lemma to_int32_mod_N z : to_int32 z mod N = z mod N.
Proof.
  unfold to_int32, N.
  pose proof (Z.div_mod (z + 2 ^ 31) (2 ^ 32) ltac:(lia)) as E.
  replace ((z + 2 ^ 31) mod 2 ^ 32 - 2 ^ 31)
    with (z + (- (2 ^ 21) * ((z + 2 ^ 31) / 2 ^ 32)) * 2048) by lia.
  apply Z.mod_add. lia.
Qed.

Lemma to_int64_mod_N z : to_int64 z mod N = z mod N.
Proof.
  unfold to_int64, N.
  pose proof (Z.div_mod (z + 2 ^ 63) (2 ^ 64) ltac:(lia)) as E.
  replace ((z + 2 ^ 63) mod 2 ^ 64 - 2 ^ 63)
    with (z + (- (2 ^ 53) * ((z + 2 ^ 63) / 2 ^ 64)) * 2048) by lia.
  apply Z.mod_add. lia.
Qed.

(** The truncating remainder followed by the lift of a negative result is
    the mathematical [mod]. *)
Lemma rem_lift_is_mod r :
  (if Z.rem r N <? 0 then Z.rem r N + N else Z.rem r N) = r mod N.
Proof.
  unfold N. destruct (Z.ltb_spec (Z.rem r 2048) 0);
    Z.to_euclidean_division_equations; lia.
Qed.

Lemma rotation_amount_mod s_i a_i :
  rotation_amount s_i a_i = (if s_i =? 1 then - a_i else a_i) mod N.
Proof.
  unfold rotation_amount. cbv zeta.
  rewrite rem_lift_is_mod, to_int32_mod_N. unfold signed_amount.
  destruct (s_i =? 1); [apply to_int64_mod_N | reflexivity].
Qed.

(** C7: for every rotation sample (in particular every 64-bit one) and
    every key trit, the amount used to index the accumulator lies in
    [0, N) and is congruent modulo N to the signed amount the trit selects,
    minus the sample for +1 and the sample otherwise; the narrowing to a
    32-bit [int] does not disturb this because N divides 2^32. *)
Theorem rotation_amount_range_congruent s_i a_i :
  0 <= rotation_amount s_i a_i < N /\
  rotation_amount s_i a_i mod N = (if s_i =? 1 then - a_i else a_i) mod N.
Proof.
  rewrite rotation_amount_mod. split.
  - apply Z.mod_pos_bound. unfold N. lia.
  - apply Z.mod_mod. unfold N. lia.
Qed.

(** C4: in every step, when the key trit decoded at the step's position is
    +1 the rotation applied to the accumulator is by minus the step's
    sample (reduced modulo N), and when the trit is -1 it is by plus the
    sample. *)
Theorem rotation_sign_convention blockDim d_bk d_nonzero_indices d_lwe_a
    s_acc step :
  let s_i := step_key_trit d_bk (load d_nonzero_indices (Z.of_nat step)) in
  let a_i := load d_lwe_a (Z.of_nat step) in
  (s_i = 1 ->
   signed_amount s_i a_i = to_int64 (- a_i) /\
   rotation_amount s_i a_i = (- a_i) mod N /\
   blind_rotation_step blockDim d_bk d_nonzero_indices d_lwe_a s_acc step
   = apply_rotation blockDim ((- a_i) mod N) s_acc) /\
  (s_i = -1 ->
   signed_amount s_i a_i = a_i /\
   rotation_amount s_i a_i = a_i mod N /\
   blind_rotation_step blockDim d_bk d_nonzero_indices d_lwe_a s_acc step
   = apply_rotation blockDim (a_i mod N) s_acc).
Proof.
  intros s_i a_i. unfold blind_rotation_step. cbv zeta. fold s_i a_i.
  split; intros E; rewrite rotation_amount_mod, E; repeat split; reflexivity.
Qed.

Lemma rotation_sign_convention_witness :
  (step_key_trit [0x6] (load [1] 0) = 1 /\
   rotation_amount (step_key_trit [0x6] (load [1] 0)) (load [5] 0)
   = (- 5) mod N) /\
  (step_key_trit [0x6] (load [0] 0) = -1 /\
   rotation_amount (step_key_trit [0x6] (load [0] 0)) (load [5] 0) = 5 mod N).
Proof.
  split; (split; [reflexivity|]).
  - apply (proj1 (rotation_sign_convention 256 [0x6] [1] [5] [] 0%nat)).
    reflexivity.
  - apply (proj2 (rotation_sign_convention 256 [0x6] [0] [5] [] 0%nat)).
    reflexivity.
Defined.

(** ** Memory lemmas *)

Lemma store_load_same s i : store s i (load s i) = s.
Proof.
  unfold store, load. apply list_insert_id'. intros Hlt.
  now apply list_lookup_lookup_total_lt.
Qed.

Lemma load_store_same s i v :
  (Z.to_nat i < length s)%nat -> load (store s i v) i = v.
Proof.
  intros Hlt. unfold store, load.
  now apply list_lookup_total_insert_eq.
Qed.

Lemma load_store_other s i j v :
  0 <= i -> 0 <= j -> i <> j -> load (store s j v) i = load s i.
Proof.
  intros Hi Hj Hne. unfold store, load.
  apply list_lookup_total_insert_ne. lia.
Qed.

Lemma store_length s i v : length (store s i v) = length s.
Proof. unfold store. apply length_insert. Qed.

(** ** The block-stride loop *)

Lemma round_indices_bounds blockDim k i :
  i ∈ round_indices blockDim k -> 0 <= i < N.
Proof.
  unfold round_indices, block_threads. intros H.
  apply list_elem_of_filter in H as [HN H]. split; [|exact HN].
  apply list_elem_of_In, in_map_iff in H as (tid & <- & H).
  apply in_map_iff in H as (n & <- & H). apply in_seq in H.
  assert (0 < blockDim) by lia. nia.
Qed.

Lemma round_indices_nonneg blockDim k :
  Forall (fun i => 0 <= i) (round_indices blockDim k).
Proof.
  apply Forall_forall. intros i H.
  now apply round_indices_bounds in H.
Qed.

(** ** Stores in sequence *)

(** After a sequence of stores [d[i] = f i], an element that was stored
    holds [f] of its index and every other element is as before. *)
Lemma stores_load (f : Z -> Z) (idx : list Z) : forall s j,
  Forall (fun i => 0 <= i) idx -> 0 <= j -> (Z.to_nat j < length s)%nat ->
  load (fold_left (fun d i => store d i (f i)) idx s) j
  = if decide (j ∈ idx) then f j else load s j.
Proof.
  induction idx as [|i idx IH]; intros s j Hidx Hj Hlen.
  - cbn [fold_left]. destruct (decide (j ∈ [])) as [Hin|_]; [|reflexivity].
    now apply not_elem_of_nil in Hin.
  - apply Forall_cons in Hidx as [Hi Hidx]. cbn [fold_left].
    rewrite IH by (rewrite ?store_length; assumption).
    destruct (decide (j ∈ idx)) as [Hin|Hnin].
    + rewrite decide_True by now apply list_elem_of_further. reflexivity.
    + destruct (decide (j = i)) as [->|Hne].
      * rewrite decide_True by apply list_elem_of_here.
        now apply load_store_same.
      * rewrite decide_False
          by (intros Hin; apply elem_of_cons in Hin as [?|?]; tauto).
        now apply load_store_other.
Qed.

Lemma stores_length (f : Z -> Z) (idx : list Z) : forall s,
  length (fold_left (fun d i => store d i (f i)) idx s) = length s.
Proof.
  induction idx as [|i idx IH]; intros s; [reflexivity|].
  cbn [fold_left]. rewrite IH. apply store_length.
Qed.

(** Stores of values the array already holds change nothing. *)
Lemma stores_of_equal_values (f : Z -> Z) (idx : list Z) s :
  (forall i, i ∈ idx -> f i = load s i) ->
  fold_left (fun d i => store d i (f i)) idx s = s.
Proof.
  induction idx as [|j idx IH]; intros H; [reflexivity|].
  cbn [fold_left]. rewrite (H j) by apply list_elem_of_here.
  rewrite store_load_same. apply IH. intros i Hi. apply H.
  now apply list_elem_of_further.
Qed.

(** Two arrays of one length with the same elements are equal. *)
Lemma same_loads_same_array (a b : list Z) :
  length a = length b ->
  (forall j, 0 <= j < Z.of_nat (length a) -> load a j = load b j) ->
  a = b.
Proof.
  intros Hlen H. apply list_eq. intros n.
  destruct (Nat.lt_ge_cases n (length a)) as [Hlt|Hge].
  - rewrite (list_lookup_lookup_total_lt a n) by exact Hlt.
    rewrite (list_lookup_lookup_total_lt b n) by (rewrite <- Hlen; exact Hlt).
    f_equal. specialize (H (Z.of_nat n) ltac:(lia)). unfold load in H.
    now rewrite Nat2Z.id in H.
  - rewrite !lookup_ge_None_2; [reflexivity | rewrite <- Hlen | ]; exact Hge.
Qed.

(** ** Which thread round reaches which index *)

Section BlockStride.
Variable blockDim : Z.
Hypothesis blockDim_pos : 0 < blockDim.

(** Index [j] is handled in round [j / blockDim.x] and in no other. *)
Lemma elem_of_round_indices k j :
  j ∈ round_indices blockDim k <->
  (0 <= j < N /\ Z.to_nat (j / blockDim) = k).
Proof using blockDim_pos.
  split.
  - intros H. pose proof (round_indices_bounds _ _ _ H) as Hb.
    split; [exact Hb|]. unfold round_indices, block_threads in H.
    apply list_elem_of_filter in H as [_ H].
    apply list_elem_of_In, in_map_iff in H as (tid & <- & H).
    apply in_map_iff in H as (n & <- & H). apply in_seq in H.
    rewrite Z.div_add by lia. rewrite Z.div_small by lia. lia.
  - intros [Hb <-]. unfold round_indices, block_threads.
    apply list_elem_of_filter. split; [lia|].
    apply list_elem_of_In, in_map_iff. exists (j mod blockDim).
    pose proof (Z.mod_pos_bound j blockDim blockDim_pos).
    assert (0 <= j / blockDim) by (apply Z.div_pos; lia).
    split.
    + rewrite Z2Nat.id by assumption.
      pose proof (Z.div_mod j blockDim ltac:(lia)). lia.
    + apply in_map_iff. exists (Z.to_nat (j mod blockDim)).
      split; [lia|]. apply in_seq. lia.
Qed.

Lemma round_of_index_lt_count j :
  0 <= j < N -> (Z.to_nat (j / blockDim) < round_count blockDim)%nat.
Proof using blockDim_pos.
  intros Hj. unfold round_count.
  assert (0 <= j / blockDim) by (apply Z.div_pos; lia).
  assert (j / blockDim <= N / blockDim) by (apply Z.div_le_mono; lia).
  destruct (Z.eqb_spec (N mod blockDim) 0) as [E|_]; [|lia].
  enough (j / blockDim < N / blockDim) by lia.
  apply Z.div_lt_upper_bound; [lia|].
  pose proof (Z.div_mod N blockDim ltac:(lia)). lia.
Qed.

(** Every index below [N] is reached by some round of the loop. *)
Lemma every_index_has_a_round j :
  0 <= j < N ->
  exists k, k ∈ seq 0 (round_count blockDim) /\ j ∈ round_indices blockDim k.
Proof using blockDim_pos.
  intros Hj. exists (Z.to_nat (j / blockDim)). split.
  - apply list_elem_of_In, in_seq.
    pose proof (round_of_index_lt_count j Hj). lia.
  - now apply elem_of_round_indices.
Qed.
End BlockStride.

(** ** The rounds of the rotation loop *)

Lemma rotation_lane_i rot i : lane_i (rotation_lane rot i) = i.
Proof. unfold rotation_lane. cbv zeta. now destruct (i - rot <? 0). Qed.

(** A round stores, at every index it handles, the value computed from the
    array as it was when the round began. *)
Lemma rotation_round_as_stores rot blockDim s_acc k :
  rotation_round rot blockDim s_acc k
  = fold_left (fun d i => store d i (lane_new_val s_acc (rotation_lane rot i)))
              (round_indices blockDim k) s_acc.
Proof.
  unfold rotation_round. cbv zeta. generalize s_acc at 2 4 as d.
  induction (round_indices blockDim k) as [|i idx IH]; intros d;
    [reflexivity|].
  cbn [map combine fold_left fst snd]. rewrite rotation_lane_i. apply IH.
Qed.

Lemma rotation_round_length rot blockDim s_acc k :
  length (rotation_round rot blockDim s_acc k) = length s_acc.
Proof. rewrite rotation_round_as_stores. apply stores_length. Qed.

Lemma rotation_round_load rot blockDim s_acc k j :
  0 <= j -> (Z.to_nat j < length s_acc)%nat ->
  load (rotation_round rot blockDim s_acc k) j
  = if decide (j ∈ round_indices blockDim k)
    then lane_new_val s_acc (rotation_lane rot j) else load s_acc j.
Proof.
  intros Hj Hlen. rewrite rotation_round_as_stores.
  apply (stores_load (fun i => lane_new_val s_acc (rotation_lane rot i)));
    [apply round_indices_nonneg | assumption..].
Qed.

Lemma rounds_before_succ rot blockDim s_acc k :
  rounds_before rot blockDim s_acc (S k)
  = rotation_round rot blockDim (rounds_before rot blockDim s_acc k) k.
Proof.
  unfold rounds_before. rewrite seq_S, fold_left_app. reflexivity.
Qed.

Lemma rounds_before_length rot blockDim s_acc k :
  length (rounds_before rot blockDim s_acc k) = length s_acc.
Proof.
  induction k as [|k IH]; [reflexivity|].
  now rewrite rounds_before_succ, rotation_round_length.
Qed.

Lemma apply_rotation_length blockDim rot s_acc :
  length (apply_rotation blockDim rot s_acc) = length s_acc.
Proof. apply rounds_before_length. Qed.

(** What the in-place loop computes: once the round of index [j] has run,
    element [j] holds the value computed from the array as the rounds
    before it left it, not from the array the step started with. *)
Lemma rounds_before_load rot blockDim s_acc j :
  0 < blockDim -> 0 <= j < N -> (Z.to_nat j < length s_acc)%nat ->
  forall m,
  load (rounds_before rot blockDim s_acc m) j
  = if (Z.to_nat (j / blockDim) <? m)%nat
    then lane_new_val (rounds_before rot blockDim s_acc (Z.to_nat (j / blockDim)))
                      (rotation_lane rot j)
    else load s_acc j.
Proof.
  intros Hbd Hj Hlen m. induction m as [|m IH]; [reflexivity|].
  rewrite rounds_before_succ.
  rewrite rotation_round_load by (rewrite ?rounds_before_length; lia).
  destruct (decide (j ∈ round_indices blockDim m)) as [Hin|Hnin].
  - apply elem_of_round_indices in Hin as [_ <-]; [|exact Hbd].
    destruct (Nat.ltb_spec (Z.to_nat (j / blockDim))
                           (S (Z.to_nat (j / blockDim)))); [reflexivity|lia].
  - rewrite IH.
    assert (Z.to_nat (j / blockDim) <> m).
    { intros E. apply Hnin. now apply elem_of_round_indices. }
    destruct (Nat.ltb_spec (Z.to_nat (j / blockDim)) m),
             (Nat.ltb_spec (Z.to_nat (j / blockDim)) (S m));
      (reflexivity || lia).
Qed.

Lemma apply_rotation_load blockDim rot s_acc j :
  0 < blockDim -> 0 <= j < N -> (Z.to_nat j < length s_acc)%nat ->
  load (apply_rotation blockDim rot s_acc) j
  = lane_new_val (rounds_before rot blockDim s_acc (Z.to_nat (j / blockDim)))
                 (rotation_lane rot j).
Proof.
  intros Hbd Hj Hlen.
  change (apply_rotation blockDim rot s_acc)
    with (rounds_before rot blockDim s_acc (round_count blockDim)).
  rewrite rounds_before_load by assumption.
  pose proof (round_of_index_lt_count blockDim Hbd j Hj).
  destruct (Nat.ltb_spec (Z.to_nat (j / blockDim)) (round_count blockDim));
    [reflexivity | lia].
Qed.

(** An element of round 0 whose source does not wrap is the old element
    [rot] places below it, as specified. *)
Lemma round_0_element blockDim rot s_acc j :
  0 <= rot <= j -> j < blockDim -> j < N -> (Z.to_nat j < length s_acc)%nat ->
  load (apply_rotation blockDim rot s_acc) j = load s_acc (j - rot).
Proof.
  intros Hrot Hbd HN Hlen. rewrite apply_rotation_load by lia.
  rewrite Z.div_small by lia. change (Z.to_nat 0) with 0%nat.
  unfold rounds_before. cbn [seq fold_left]. unfold rotation_lane. cbv zeta.
  destruct (Z.ltb_spec (j - rot) 0); [lia | reflexivity].
Qed.


(** The first element of round 1, for a rotation by at most half a block:
    its source was overwritten in round 0, so it receives the old element
    [2 * rot] places below it instead of [rot] places. *)
Lemma first_element_of_round_1 rot s_acc :
  0 < rot -> 2 * rot <= THREADS_PER_BLOCK -> length s_acc = Z.to_nat N ->
  load (apply_rotation THREADS_PER_BLOCK rot s_acc) THREADS_PER_BLOCK
  = load s_acc (THREADS_PER_BLOCK - 2 * rot).
Proof.
  unfold THREADS_PER_BLOCK. intros Hrot Hhalf Hlen.
  assert (HN : N = 2048) by reflexivity.
  rewrite apply_rotation_load by lia.
  change (Z.to_nat (256 / 256)) with 1%nat.
  unfold rotation_lane at 1. cbv zeta.
  destruct (Z.ltb_spec (256 - rot) 0); [lia|].
  unfold lane_new_val at 1. cbn [lane_src_idx lane_sign].
  change (1 =? -1) with false. cbv iota.
  rewrite rounds_before_load by lia.
  rewrite Z.div_small by lia. change (Z.to_nat 0 <? 1)%nat with true.
  cbv iota. change (Z.to_nat 0) with 0%nat.
  unfold rounds_before. cbn [seq fold_left]. unfold rotation_lane. cbv zeta.
  destruct (Z.ltb_spec (256 - rot - rot) 0); [lia|].
  unfold lane_new_val. cbn [lane_src_idx lane_sign].
  change (1 =? -1) with false. cbv iota. f_equal. lia.
Qed.

(** ** A rotation by 0 *)

Lemma rotation_lane_0 i : 0 <= i -> rotation_lane 0 i = Lane i i 1.
Proof.
  intros H. unfold rotation_lane. cbv zeta. rewrite Z.sub_0_r.
  destruct (Z.ltb_spec i 0); [lia | reflexivity].
Qed.

(** With [rot = 0] every thread stores the value its own element holds. *)
Lemma rotation_round_0 blockDim s_acc k :
  rotation_round 0 blockDim s_acc k = s_acc.
Proof.
  rewrite rotation_round_as_stores. apply stores_of_equal_values.
  intros i Hi. apply round_indices_bounds in Hi.
  rewrite rotation_lane_0 by lia. reflexivity.
Qed.

Lemma apply_rotation_0 blockDim s_acc : apply_rotation blockDim 0 s_acc = s_acc.
Proof.
  unfold apply_rotation. induction (seq 0 (round_count blockDim)) as [|k ks IH];
    [reflexivity|].
  cbn [fold_left]. rewrite rotation_round_0. exact IH.
Qed.

Lemma rotation_amount_multiple s_i a_i :
  a_i mod N = 0 -> rotation_amount s_i a_i = 0.
Proof.
  intros H. rewrite rotation_amount_mod. destruct (s_i =? 1); [|exact H].
  unfold N in *. Z.to_euclidean_division_equations. lia.
Qed.

(** C9: a step whose rotation sample is congruent to 0 modulo N leaves
    every element of the accumulator unchanged, whatever the key and the
    position it decodes, so both for a trit +1 and for a trit -1. *)
Theorem step_with_multiple_of_N_is_identity blockDim d_bk d_nonzero_indices
    d_lwe_a s_acc step :
  load d_lwe_a (Z.of_nat step) mod N = 0 ->
  blind_rotation_step blockDim d_bk d_nonzero_indices d_lwe_a s_acc step
  = s_acc.
Proof.
  intros H. unfold blind_rotation_step. cbv zeta.
  rewrite rotation_amount_multiple by exact H. apply apply_rotation_0.
Qed.

Lemma step_with_multiple_of_N_is_identity_witness :
  load [-4096] (Z.of_nat 0) mod N = 0 /\
  blind_rotation_step 256 [0x5] [0] [-4096] [7; 8; 9] 0 = [7; 8; 9] /\
  blind_rotation_step 256 [0xA] [0] [-4096] [7; 8; 9] 0 = [7; 8; 9].
Proof.
  split; [reflexivity|]. split.
  - apply (step_with_multiple_of_N_is_identity 256 [0x5] [0] [-4096]).
    reflexivity.
  - apply (step_with_multiple_of_N_is_identity 256 [0xA] [0] [-4096]).
    reflexivity.
Defined.

(** ** The copy loops and the kernel *)

Lemma copy_round_length src blockDim dst k :
  length (copy_round src blockDim dst k) = length dst.
Proof. apply stores_length. Qed.

Lemma copy_round_load src blockDim dst k i :
  0 <= i -> (Z.to_nat i < length dst)%nat ->
  load (copy_round src blockDim dst k) i
  = if decide (i ∈ round_indices blockDim k) then load src i else load dst i.
Proof.
  intros Hi Hlen. unfold copy_round.
  apply (stores_load (load src)); [apply round_indices_nonneg | assumption..].
Qed.

Lemma block_copy_length blockDim src dst :
  length (block_copy blockDim src dst) = length dst.
Proof.
  unfold block_copy. generalize dst.
  induction (seq 0 (round_count blockDim)) as [|k ks IH]; intros d;
    [reflexivity|].
  cbn [fold_left]. rewrite IH. apply copy_round_length.
Qed.

(** Once an element equals the source's, later rounds keep it so. *)
Lemma copy_rounds_keep src blockDim (ks : list nat) : forall dst i,
  0 <= i -> (Z.to_nat i < length dst)%nat ->
  load dst i = load src i ->
  load (fold_left (copy_round src blockDim) ks dst) i = load src i.
Proof.
  induction ks as [|k ks IH]; intros dst i Hi Hlen Heq; [exact Heq|].
  cbn [fold_left]. apply IH; [assumption | now rewrite copy_round_length |].
  rewrite copy_round_load by assumption.
  destruct (decide (i ∈ round_indices blockDim k)); [reflexivity | exact Heq].
Qed.

Lemma copy_rounds_set src blockDim (ks : list nat) : forall dst k i,
  k ∈ ks -> i ∈ round_indices blockDim k -> (Z.to_nat i < length dst)%nat ->
  load (fold_left (copy_round src blockDim) ks dst) i = load src i.
Proof.
  induction ks as [|k' ks IH]; intros dst k i Hk Hi Hlen.
  - now apply not_elem_of_nil in Hk.
  - pose proof (round_indices_bounds _ _ _ Hi) as Hb. cbn [fold_left].
    apply elem_of_cons in Hk as [->|Hk].
    + apply copy_rounds_keep; [lia | now rewrite copy_round_length |].
      rewrite copy_round_load by (lia || assumption).
      now rewrite decide_True.
    + apply (IH _ k); [assumption.. | now rewrite copy_round_length].
Qed.

(** Rounds that copy elements already equal to the source's change
    nothing. *)
Lemma copy_rounds_equal src blockDim (ks : list nat) dst :
  (forall k i, k ∈ ks -> i ∈ round_indices blockDim k ->
               load src i = load dst i) ->
  fold_left (copy_round src blockDim) ks dst = dst.
Proof.
  induction ks as [|k ks IH]; intros H; [reflexivity|].
  cbn [fold_left].
  assert (E : copy_round src blockDim dst k = dst).
  { apply stores_of_equal_values. intros i Hi.
    apply (H k i); [apply list_elem_of_here | exact Hi]. }
  rewrite E. apply IH. intros k' i Hk Hi.
  apply (H k' i); [now apply list_elem_of_further | exact Hi].
Qed.

(** C10: with a count of nonzero positions of 0 the kernel leaves the
    accumulator buffer as it was: every element of [d_acc] after the call
    equals its value before the call (the shared array holds N elements,
    as the launch provides). *)
Theorem kernel_without_steps_is_identity cfg d_acc d_bk d_nonzero_indices
    d_lwe_a :
  length (s_acc_init cfg) = Z.to_nat N ->
  sparse_blind_rotation_kernel cfg d_acc d_bk d_nonzero_indices d_lwe_a 0
  = d_acc.
Proof.
  intros Hlen. unfold sparse_blind_rotation_kernel. cbv zeta.
  cbn [Z.to_nat seq fold_left]. unfold block_copy at 1.
  apply copy_rounds_equal. intros k i Hk Hi.
  pose proof (round_indices_bounds _ _ _ Hi) as Hb.
  unfold block_copy. apply (copy_rounds_set _ _ _ _ k); [assumption..|].
  rewrite Hlen. lia.
Qed.

Lemma kernel_without_steps_is_identity_witness :
  length (s_acc_init harness_launch) = Z.to_nat N /\
  sparse_blind_rotation_kernel harness_launch iota_acc [0xAAAAAAAA] [] [] 0
  = iota_acc.
Proof.
  split; [apply repeat_length|].
  apply (kernel_without_steps_is_identity harness_launch iota_acc).
  apply repeat_length.
Defined.

(** A copy loop over two arrays of N elements makes the destination equal
    to the source. *)
Lemma block_copy_full blockDim src dst :
  0 < blockDim -> length src = Z.to_nat N -> length dst = Z.to_nat N ->
  block_copy blockDim src dst = src.
Proof.
  intros Hbd Hsrc Hdst. apply same_loads_same_array.
  - now rewrite block_copy_length, Hsrc.
  - rewrite block_copy_length, Hdst. intros j Hj.
    assert (HN : 0 <= N) by (unfold N; lia).
    destruct (every_index_has_a_round blockDim Hbd j) as (k & Hk & Hin);
      [lia|].
    unfold block_copy. apply (copy_rounds_set _ _ _ _ k); [assumption..|].
    rewrite Hdst. lia.
Qed.

Lemma steps_length blockDim d_bk d_nonzero_indices d_lwe_a (steps : list nat) :
  forall s_acc,
  length (fold_left (blind_rotation_step blockDim d_bk d_nonzero_indices d_lwe_a)
                    steps s_acc) = length s_acc.
Proof.
  induction steps as [|step steps IH]; intros s_acc; [reflexivity|].
  cbn [fold_left]. rewrite IH. apply apply_rotation_length.
Qed.

(** On an accumulator of N elements, with shared memory for N elements,
    the kernel returns what the steps make of the accumulator. *)
Lemma kernel_runs_the_steps cfg d_acc d_bk d_nonzero_indices d_lwe_a
    num_nonzero :
  0 < blockDim_x cfg -> length (s_acc_init cfg) = Z.to_nat N ->
  length d_acc = Z.to_nat N ->
  sparse_blind_rotation_kernel cfg d_acc d_bk d_nonzero_indices d_lwe_a
                               num_nonzero
  = fold_left (blind_rotation_step (blockDim_x cfg) d_bk d_nonzero_indices
                                   d_lwe_a)
              (seq 0 (Z.to_nat num_nonzero)) d_acc.
Proof.
  intros Hbd Hs Hd. unfold sparse_blind_rotation_kernel. cbv zeta.
  rewrite (block_copy_full _ d_acc) by assumption.
  apply block_copy_full; [assumption | | assumption].
  now rewrite steps_length.
Qed.

Lemma iota_acc_length : length iota_acc = Z.to_nat N.
Proof. unfold iota_acc. now rewrite length_map, length_seq. Qed.

Lemma load_iota_acc j : 0 <= j < N -> load iota_acc j = j.
Proof.
  intros Hj. unfold load, iota_acc.
  apply list_lookup_total_correct.
  change (map Z.of_nat) with (fmap (M := list) Z.of_nat).
  rewrite list_lookup_fmap, lookup_seq_lt by lia.
  cbn [fmap option_fmap option_map Nat.add]. f_equal. lia.
Qed.

Lemma harness_kernel_runs_the_steps d_bk d_nonzero_indices d_lwe_a
    num_nonzero :
  sparse_blind_rotation_kernel harness_launch iota_acc d_bk d_nonzero_indices
                               d_lwe_a num_nonzero
  = fold_left (blind_rotation_step THREADS_PER_BLOCK d_bk d_nonzero_indices
                                   d_lwe_a)
              (seq 0 (Z.to_nat num_nonzero)) iota_acc.
Proof.
  apply (kernel_runs_the_steps harness_launch).
  - reflexivity.
  - apply repeat_length.
  - apply iota_acc_length.
Qed.

(** ** The in-place rotation against the specified one *)

(** Side conditions on concrete indices and lengths. *)
Ltac bounds :=
  rewrite ?apply_rotation_length, ?iota_acc_length;
  unfold THREADS_PER_BLOCK, N in *; lia.


Lemma spec_rotation_load rot old j :
  0 <= j < N ->
  load (negacyclic_rotation_spec rot old) j
  = if j - rot <? 0 then - load old ((j - rot) mod N)
    else load old ((j - rot) mod N).
Proof.
  intros Hj. unfold load at 1. unfold negacyclic_rotation_spec.
  apply list_lookup_total_correct.
  change map with (@fmap list _). rewrite !list_lookup_fmap.
  rewrite lookup_seq_lt by lia. cbn [fmap option_fmap option_map Nat.add].
  rewrite Z2Nat.id by lia. reflexivity.
Qed.

Lemma to_int64_opp v : - 2 ^ 63 < v -> is_int64 v -> to_int64 (- v) = - v.
Proof.
  unfold is_int64, to_int64. intros Hmin Hv. rewrite Z.mod_small; lia.
Qed.


(** For every accumulator and every rotation by at most half a block, the
    kernel's rotation and the specified one disagree at element 256 as soon
    as the two old elements they pick differ. *)
Lemma in_place_rotation_differs_from_spec rot s_acc :
  0 < rot -> 2 * rot <= THREADS_PER_BLOCK -> length s_acc = Z.to_nat N ->
  load s_acc (THREADS_PER_BLOCK - 2 * rot)
    <> load s_acc (THREADS_PER_BLOCK - rot) ->
  apply_rotation THREADS_PER_BLOCK rot s_acc
    <> negacyclic_rotation_spec rot s_acc.
Proof.
  intros Hrot Hhalf Hlen Hne Heq. apply Hne.
  rewrite <- first_element_of_round_1 by assumption. rewrite Heq.
  unfold THREADS_PER_BLOCK in *.
  rewrite spec_rotation_load by (unfold N; lia).
  destruct (Z.ltb_spec (256 - rot) 0); [lia|].
  rewrite Z.mod_small by (unfold N; lia). reflexivity.
Qed.

(** The harness key [0xAAAAAAAA] holds the trit -1 at position 0, so a
    step at position 0 rotates by its sample. *)
Lemma harness_step_rotates_by_sample d_nonzero_indices d_lwe_a s_acc step :
  load d_nonzero_indices (Z.of_nat step) = 0 ->
  0 <= load d_lwe_a (Z.of_nat step) < N ->
  blind_rotation_step THREADS_PER_BLOCK [0xAAAAAAAA] d_nonzero_indices
                      d_lwe_a s_acc step
  = apply_rotation THREADS_PER_BLOCK (load d_lwe_a (Z.of_nat step)) s_acc.
Proof.
  intros Hidx Ha. unfold blind_rotation_step. cbv zeta. rewrite Hidx.
  change (step_key_trit [0xAAAAAAAA] 0) with (-1).
  rewrite rotation_amount_mod. change (-1 =? 1) with false. cbv iota.
  now rewrite Z.mod_small.
Qed.

(** C1: the kernel launched by the harness (256 threads) on the
    accumulator 0, 1, ..., 2047, one step at key position 0 with trit -1
    and sample 1, so a rotation by 1.  The specified rotation puts the old
    element 255 at position 256; the kernel leaves 254 there, the value
    round 0 had already stored at index 255. *)
Theorem kernel_step_differs_from_specified_rotation :
  let out := sparse_blind_rotation_kernel harness_launch iota_acc
               [0xAAAAAAAA] [0] [1] 1 in
  step_key_trit [0xAAAAAAAA] 0 = -1 /\
  rotation_amount (-1) 1 = 1 /\
  load iota_acc ((256 - 1) mod N) = 255 /\
  load (negacyclic_rotation_spec 1 iota_acc) 256 = 255 /\
  load out 256 = 254 /\
  out <> negacyclic_rotation_spec 1 iota_acc.
Proof.
  cbv zeta. rewrite harness_kernel_runs_the_steps.
  change (seq 0 (Z.to_nat 1)) with [0%nat]. cbn [fold_left].
  rewrite harness_step_rotates_by_sample
    by (reflexivity || now vm_compute).
  change (load [1] (Z.of_nat 0)) with 1.
  split; [reflexivity|]. split; [reflexivity|].
  change ((256 - 1) mod N) with 255.
  split; [now rewrite load_iota_acc by bounds|].
  split; [|split].
  - rewrite spec_rotation_load by bounds.
    change (256 - 1 <? 0) with false. cbv iota.
    change ((256 - 1) mod N) with 255.
    now rewrite load_iota_acc by bounds.
  - change 256 with THREADS_PER_BLOCK at 1.
    rewrite (first_element_of_round_1 1 iota_acc);
      [| lia | bounds | bounds].
    now rewrite load_iota_acc by bounds.
  - apply in_place_rotation_differs_from_spec;
      [lia | bounds | bounds |].
    rewrite !load_iota_acc by bounds. discriminate.
Qed.

(** C2: in the rotation by 1 with 256 threads, the first read of every
    round after round 0 goes to an index the previous round has already
    written, in the same array and the same step; the thread with
    [i = 256] reads index 255 after round 0 stored 254 there and so never
    sees the old value 255. *)
Theorem rotation_reads_overwritten_elements :
  let after_round_0 := rotation_round 1 THREADS_PER_BLOCK iota_acc 0 in
  stale_reads [] (rotation_trace THREADS_PER_BLOCK 1)
  = [255; 511; 767; 1023; 1279; 1535; 1791] /\
  lane_src_idx (rotation_lane 1 256) = 255 /\
  load iota_acc 255 = 255 /\
  load after_round_0 255 = 254 /\
  lane_new_val after_round_0 (rotation_lane 1 256) = 254.
Proof.
  cbv zeta.
  assert (E : load (rotation_round 1 THREADS_PER_BLOCK iota_acc 0) 255 = 254).
  { rewrite rotation_round_load
      by bounds.
    rewrite decide_True
      by (apply elem_of_round_indices; [bounds | split; [bounds | reflexivity]]).
    change (rotation_lane 1 255) with (Lane 255 254 1).
    unfold lane_new_val. cbn [lane_src_idx lane_sign].
    change (1 =? -1) with false. cbv iota.
    now rewrite load_iota_acc by bounds. }
  split; [vm_compute; reflexivity|]. split; [reflexivity|].
  split; [now rewrite load_iota_acc by bounds|].
  split; [exact E|].
  change (rotation_lane 1 256) with (Lane 256 255 1).
  unfold lane_new_val. cbn [lane_src_idx lane_sign].
  change (1 =? -1) with false. cbv iota. exact E.
Qed.

(** C5: the kernel of the harness on the accumulator 0, 1, ..., 2047 and
    the all -1 key: two steps with samples 1 and 1 leave 253 at position
    256, one step with the combined sample 2 leaves 252 there. *)
Theorem two_steps_differ_from_combined_step :
  let two := sparse_blind_rotation_kernel harness_launch iota_acc
               [0xAAAAAAAA] [0; 0] [1; 1] 2 in
  let one := sparse_blind_rotation_kernel harness_launch iota_acc
               [0xAAAAAAAA] [0] [(1 + 1) mod N] 1 in
  load two 256 = 253 /\ load one 256 = 252 /\ two <> one.
Proof.
  cbv zeta. rewrite !harness_kernel_runs_the_steps.
  change (seq 0 (Z.to_nat 2)) with [0%nat; 1%nat].
  change (seq 0 (Z.to_nat 1)) with [0%nat]. cbn [fold_left].
  rewrite !harness_step_rotates_by_sample
    by (reflexivity || now vm_compute).
  change (load [1; 1] (Z.of_nat 0)) with 1.
  change (load [1; 1] (Z.of_nat 1)) with 1.
  change (load [(1 + 1) mod N] (Z.of_nat 0)) with 2.
  assert (E2 : load (apply_rotation THREADS_PER_BLOCK 1
                       (apply_rotation THREADS_PER_BLOCK 1 iota_acc)) 256
               = 253).
  { change 256 with THREADS_PER_BLOCK at 1.
    rewrite first_element_of_round_1;
      [| lia | bounds | bounds].
    change (THREADS_PER_BLOCK - 2 * 1) with 254.
    rewrite round_0_element by bounds.
    now rewrite load_iota_acc by bounds. }
  assert (E1 : load (apply_rotation THREADS_PER_BLOCK 2 iota_acc) 256 = 252).
  { change 256 with THREADS_PER_BLOCK at 1.
    rewrite first_element_of_round_1;
      [| lia | bounds | bounds].
    now rewrite load_iota_acc by bounds. }
  split; [exact E2|]. split; [exact E1|].
  intros Heq. rewrite Heq, E1 in E2. discriminate E2.
Qed.

(** Against C3 as stated: a key word of reserved codes is decoded to 3
    without any error, and the kernel runs to completion with it, rotating
    exactly as it does for the trit -1. *)
Lemma reserved_code_is_not_rejected :
  trit_code 0xFFFFFFFF 0 = 3 /\
  unpack_trit 0xFFFFFFFF 0 = 3 /\
  sparse_blind_rotation_kernel harness_launch iota_acc [0xFFFFFFFF] [0] [1] 1
  = sparse_blind_rotation_kernel harness_launch iota_acc [0xAAAAAAAA] [0] [1] 1.
Proof.
  split; [reflexivity|]. split; [reflexivity|].
  rewrite !harness_kernel_runs_the_steps.
  change (seq 0 (Z.to_nat 1)) with [0%nat]. cbn [fold_left].
  unfold blind_rotation_step. cbv zeta.
  change (rotation_amount (step_key_trit [0xFFFFFFFF] (load [0] (Z.of_nat 0)))
                          (load [1] (Z.of_nat 0))) with 1.
  change (rotation_amount (step_key_trit [0xAAAAAAAA] (load [0] (Z.of_nat 0)))
                          (load [1] (Z.of_nat 0))) with 1.
  reflexivity.
Qed.

(** ** The scalar fused multiply-add *)

Lemma decode_trit_total code :
  0 <= code < 4 -> code <> 3 ->
  exists t, decode_trit code = Some t /\ (t = 0 \/ t = 1 \/ t = -1).
Proof.
  intros Hr H3. unfold decode_trit.
  destruct (Z.eqb_spec code 0); [eauto|].
  destruct (Z.eqb_spec code 1); [eauto|].
  destruct (Z.eqb_spec code 2); [eauto|]. lia.
Qed.

Lemma ternary_select_is_product t a :
  t = 0 \/ t = 1 \/ t = -1 -> ternary_select t a = a * t.
Proof. intros [-> | [-> | ->]]; unfold ternary_select; cbn; lia. Qed.

Lemma fma_element_product A B_trit i :
  packed_code B_trit i <> 3 ->
  exists t, decode_trit (packed_code B_trit i) = Some t /\
            fma_element A B_trit i = Some (load A (Z.of_nat i) * t).
Proof.
  intros H3.
  destruct (decode_trit_total (packed_code B_trit i)) as (t & Ht & Hdom);
    [apply trit_code_range | exact H3 |].
  exists t. split; [exact Ht|]. unfold fma_element. rewrite Ht.
  now rewrite ternary_select_is_product.
Qed.

(** C8: [sparse_ternary_fma] computes [C[i] = A[i] * decode (B_trit[i])]
    for every index [i] below [N], for a packed operand that holds N legal
    codes; and for N = 8, A = 1..8 and the trits +1, 0, -1, 0, 0, +1, 0, -1
    the output is 1, 0, -3, 0, 0, 6, 0, -8. *)
Theorem sparse_ternary_fma_elementwise :
  (forall (A B_trit : list Z) (n : nat),
     (n <= 4 * length B_trit)%nat ->
     (forall i, (i < n)%nat -> packed_code B_trit i <> 3) ->
     exists C, sparse_ternary_fma A B_trit n = Some C /\ length C = n /\
       forall i, (i < n)%nat ->
         exists t, decode_trit (packed_code B_trit i) = Some t /\
                   load C (Z.of_nat i) = load A (Z.of_nat i) * t) /\
  (exists B_trit, pack_trit_array [1; 0; -1; 0; 0; 1; 0; -1] = Some B_trit /\
     sparse_ternary_fma [1; 2; 3; 4; 5; 6; 7; 8] B_trit 8
     = Some [1; 0; -3; 0; 0; 6; 0; -8]).
Proof.
  split.
  - intros A B_trit n Hcap Hlegal. unfold sparse_ternary_fma.
    destruct (Nat.ltb_spec (4 * length B_trit) n) as [Hlt|_]; [lia|].
    assert (Hsome : is_Some (mapM (fma_element A B_trit) (seq 0 n))).
    { apply mapM_is_Some, Forall_forall. intros i Hi.
      apply list_elem_of_In, in_seq in Hi.
      destruct (fma_element_product A B_trit i) as (t & _ & E);
        [apply Hlegal; lia|].
      cbn. rewrite E. eauto. }
    destruct Hsome as [C HC]. exists C. split; [exact HC|].
    apply mapM_Some_1 in HC.
    pose proof (Forall2_length _ _ _ HC) as Hlen.
    rewrite length_seq in Hlen. split; [now symmetry|].
    intros i Hi.
    destruct (fma_element_product A B_trit i) as (t & Ht & E);
      [now apply Hlegal|].
    exists t. split; [exact Ht|].
    destruct (Forall2_lookup_l _ _ _ i i HC) as (c & Hc & Hf).
    { now apply lookup_seq_lt. }
    rewrite E in Hf. injection Hf as Hf. subst c.
    unfold load at 1. rewrite Nat2Z.id.
    apply list_lookup_total_correct. exact Hc.
  - exists [33; 132]. split; reflexivity.
Qed.

Lemma sparse_ternary_fma_elementwise_witness :
  (3 <= 4 * length [0x26])%nat /\
  (forall i, (i < 3)%nat -> packed_code [0x26] i <> 3) /\
  exists C, sparse_ternary_fma [10; 20; 30] [0x26] 3 = Some C /\
    length C = 3%nat /\
    forall i, (i < 3)%nat ->
      exists t, decode_trit (packed_code [0x26] i) = Some t /\
                load C (Z.of_nat i) = load [10; 20; 30] (Z.of_nat i) * t.
Proof.
  assert (Hcap : (3 <= 4 * length [0x26])%nat) by (cbn; lia).
  assert (Hlegal : forall i, (i < 3)%nat -> packed_code [0x26] i <> 3).
  { intros i Hi. destruct i as [|[|[|i]]]; [now vm_compute.. | lia]. }
  split; [exact Hcap|]. split; [exact Hlegal|].
  exact (proj1 sparse_ternary_fma_elementwise [10; 20; 30] [0x26] 3%nat
               Hcap Hlegal).
Defined.

(** * Further properties of the kernel and its harness *)

(** ** What [unpack_trit] can return *)

(** X1: for a position of the word, [unpack_trit] returns -1, 0, 1 or 3 and
    nothing else; it returns 1 exactly for the code 1 (the one case the
    kernel tests for) and 3 exactly for the reserved code. *)
Theorem unpack_trit_values packed_container index :
  0 <= index < PACKING_FACTOR ->
  (unpack_trit packed_container index = -1 \/
   unpack_trit packed_container index = 0 \/
   unpack_trit packed_container index = 1 \/
   unpack_trit packed_container index = 3) /\
  (unpack_trit packed_container index = 1 <->
   trit_code packed_container index = 1) /\
  (unpack_trit packed_container index = 3 <->
   trit_code packed_container index = 3).
Proof.
  intros H. rewrite unpack_trit_by_code by assumption.
  pose proof (trit_code_range packed_container index) as Hr.
  destruct (Z.eqb_spec (trit_code packed_container index) 2) as [E|E].
  - rewrite E. split; [now left|]. split; split; discriminate.
  - split; [lia|]. split; reflexivity.
Qed.

Lemma unpack_trit_values_witness :
  0 <= 3 < PACKING_FACTOR /\ trit_code 0x40 3 = 1 /\ unpack_trit 0x40 3 = 1.
Proof.
  assert (H : 0 <= 3 < PACKING_FACTOR) by (unfold PACKING_FACTOR; lia).
  split; [exact H|]. split; [reflexivity|].
  exact (proj2 (proj1 (proj2 (unpack_trit_values 0x40 3 H))) eq_refl).
Defined.

(** ** What a step depends on *)

(** X2: a step whose decoded key trit is anything but +1, so also the trit
    0 and the value 3 of the reserved code, is not skipped: it rotates by
    plus the sample, like a step with the trit -1. *)
Theorem step_without_plus_one_rotates_by_sample blockDim d_bk
    d_nonzero_indices d_lwe_a s_acc step :
  step_key_trit d_bk (load d_nonzero_indices (Z.of_nat step)) <> 1 ->
  blind_rotation_step blockDim d_bk d_nonzero_indices d_lwe_a s_acc step
  = apply_rotation blockDim (load d_lwe_a (Z.of_nat step) mod N) s_acc.
Proof.
  intros Hne. unfold blind_rotation_step. cbv zeta.
  rewrite rotation_amount_mod.
  destruct (Z.eqb_spec
              (step_key_trit d_bk (load d_nonzero_indices (Z.of_nat step))) 1);
    [contradiction | reflexivity].
Qed.

Lemma step_without_plus_one_rotates_by_sample_witness :
  step_key_trit [0x0] (load [0] (Z.of_nat 0)) <> 1 /\
  blind_rotation_step 256 [0x0] [0] [5] [7; 8; 9] 0
  = apply_rotation 256 (load [5] (Z.of_nat 0) mod N) [7; 8; 9].
Proof.
  assert (H : step_key_trit [0x0] (load [0] (Z.of_nat 0)) <> 1)
    by (vm_compute; discriminate).
  split; [exact H|].
  exact (step_without_plus_one_rotates_by_sample 256 [0x0] [0] [5] [7; 8; 9]
           0%nat H).
Defined.

(** X3: only the residue of a sample modulo N matters, also through the
    narrowing to [int]: two sample arrays whose entries for a step are
    congruent modulo N give the same step. *)
Theorem congruent_samples_same_step blockDim d_bk d_nonzero_indices
    d_lwe_a d_lwe_a' s_acc step :
  load d_lwe_a (Z.of_nat step) mod N = load d_lwe_a' (Z.of_nat step) mod N ->
  blind_rotation_step blockDim d_bk d_nonzero_indices d_lwe_a s_acc step
  = blind_rotation_step blockDim d_bk d_nonzero_indices d_lwe_a' s_acc step.
Proof.
  intros H. unfold blind_rotation_step. cbv zeta.
  rewrite !rotation_amount_mod. f_equal.
  destruct (_ =? 1); [|exact H].
  unfold N in *. Z.to_euclidean_division_equations. lia.
Qed.

Lemma congruent_samples_same_step_witness :
  load [5] (Z.of_nat 0) mod N = load [5 + 3 * 2 ^ 40] (Z.of_nat 0) mod N /\
  blind_rotation_step 256 [0x1] [0] [5] [7; 8; 9] 0
  = blind_rotation_step 256 [0x1] [0] [5 + 3 * 2 ^ 40] [7; 8; 9] 0.
Proof.
  assert (H : load [5] (Z.of_nat 0) mod N
              = load [5 + 3 * 2 ^ 40] (Z.of_nat 0) mod N) by reflexivity.
  split; [exact H|].
  exact (congruent_samples_same_step 256 [0x1] [0] [5] [5 + 3 * 2 ^ 40]
           [7; 8; 9] 0%nat H).
Defined.

Lemma fold_left_ext_in {A B} (f g : A -> B -> A) (l : list B) :
  (forall a x, x ∈ l -> f a x = g a x) ->
  forall a, fold_left f l a = fold_left g l a.
Proof.
  induction l as [|x l IH]; intros H a; [reflexivity|].
  cbn [fold_left]. rewrite (H a x) by apply list_elem_of_here.
  apply IH. intros a' y Hy. apply H. now apply list_elem_of_further.
Qed.

(** X4: the kernel reads the index and sample arrays only below
    [num_nonzero], and the key only at the words those indices select:
    inputs that agree there give the same result. *)
Theorem kernel_reads_only_the_counted_entries cfg d_acc d_bk d_bk'
    d_nonzero_indices d_nonzero_indices' d_lwe_a d_lwe_a' num_nonzero :
  (forall step, (step < Z.to_nat num_nonzero)%nat ->
     load d_nonzero_indices (Z.of_nat step)
     = load d_nonzero_indices' (Z.of_nat step) /\
     load d_lwe_a (Z.of_nat step) = load d_lwe_a' (Z.of_nat step) /\
     load d_bk (Z.quot (load d_nonzero_indices (Z.of_nat step)) PACKING_FACTOR)
     = load d_bk' (Z.quot (load d_nonzero_indices (Z.of_nat step))
                          PACKING_FACTOR)) ->
  sparse_blind_rotation_kernel cfg d_acc d_bk d_nonzero_indices d_lwe_a
                               num_nonzero
  = sparse_blind_rotation_kernel cfg d_acc d_bk' d_nonzero_indices' d_lwe_a'
                                 num_nonzero.
Proof.
  intros H. unfold sparse_blind_rotation_kernel. cbv zeta. f_equal.
  apply fold_left_ext_in. intros s step Hstep.
  apply list_elem_of_In, in_seq in Hstep.
  destruct (H step ltac:(lia)) as (Hidx & Ha & Hbk).
  unfold blind_rotation_step, step_key_trit. cbv zeta.
  now rewrite <- Hidx, <- Ha, Hbk.
Qed.

Lemma kernel_reads_only_the_counted_entries_witness :
  sparse_blind_rotation_kernel harness_launch iota_acc [0x2; 0x1] [3; 20] [4; 9] 1
  = sparse_blind_rotation_kernel harness_launch iota_acc [0x2; 0x3] [3; 7]
                                 [4; 1] 1.
Proof.
  apply kernel_reads_only_the_counted_entries. intros step Hstep.
  assert (step = 0%nat) as -> by (change (Z.to_nat 1) with 1%nat in Hstep; lia).
  repeat split; reflexivity.
Defined.

(** ** The kernel as a whole *)

Lemma load_out_of_range (s : list Z) j :
  (length s <= Z.to_nat j)%nat -> load s j = inhabitant.
Proof.
  intros H. unfold load. rewrite list_lookup_total_alt.
  now rewrite lookup_ge_None_2.
Qed.

(** No round of a block-stride loop reaches an index from [N] on. *)
Lemma copy_rounds_outside src blockDim (ks : list nat) : forall dst j,
  N <= j -> load (fold_left (copy_round src blockDim) ks dst) j = load dst j.
Proof.
  induction ks as [|k ks IH]; intros dst j Hj; [reflexivity|].
  cbn [fold_left]. rewrite IH by assumption.
  destruct (Nat.lt_ge_cases (Z.to_nat j) (length dst)) as [Hlt|Hge].
  - rewrite copy_round_load by (unfold N in *; lia).
    rewrite decide_False; [reflexivity|].
    intros Hin. apply round_indices_bounds in Hin. lia.
  - rewrite !load_out_of_range; rewrite ?copy_round_length; auto.
Qed.

(** X5: the kernel keeps the size of the accumulator buffer and writes
    nothing from index [N] on, whatever the launch and the inputs are. *)
Theorem kernel_frame cfg d_acc d_bk d_nonzero_indices d_lwe_a num_nonzero :
  let out := sparse_blind_rotation_kernel cfg d_acc d_bk d_nonzero_indices
               d_lwe_a num_nonzero in
  length out = length d_acc /\
  forall j, N <= j -> load out j = load d_acc j.
Proof.
  cbv zeta. unfold sparse_blind_rotation_kernel. cbv zeta. split.
  - apply block_copy_length.
  - intros j Hj. unfold block_copy at 1. now apply copy_rounds_outside.
Qed.

Lemma kernel_frame_witness :
  N <= 2049 /\
  load (sparse_blind_rotation_kernel harness_launch (iota_acc ++ [77; 88])
          [0xAAAAAAAA] [0] [1] 1) 2049
  = load (iota_acc ++ [77; 88]) 2049.
Proof.
  assert (H : N <= 2049) by (unfold N; lia). split; [exact H|].
  exact (proj2 (kernel_frame harness_launch (iota_acc ++ [77; 88])
                  [0xAAAAAAAA] [0] [1] 1) 2049 H).
Defined.

(** After the load loop the shared array holds the first N elements of
    the source, whatever it held before. *)
Lemma block_copy_loaded blockDim src dst j :
  0 < blockDim -> length dst = Z.to_nat N -> 0 <= j < N ->
  load (block_copy blockDim src dst) j = load src j.
Proof.
  intros Hbd Hdst Hj.
  destruct (every_index_has_a_round blockDim Hbd j Hj) as (k & Hk & Hin).
  unfold block_copy. apply (copy_rounds_set _ _ _ _ k); [assumption..|].
  rewrite Hdst. lia.
Qed.

(** X6: the content of the shared array at launch does not reach the
    result: two launches with the same block size whose shared arrays hold
    N elements each return the same accumulator. *)
Theorem kernel_ignores_initial_shared_memory blockDim s_init s_init' d_acc
    d_bk d_nonzero_indices d_lwe_a num_nonzero :
  0 < blockDim ->
  length s_init = Z.to_nat N -> length s_init' = Z.to_nat N ->
  sparse_blind_rotation_kernel (Launch blockDim s_init) d_acc d_bk
                               d_nonzero_indices d_lwe_a num_nonzero
  = sparse_blind_rotation_kernel (Launch blockDim s_init') d_acc d_bk
                                 d_nonzero_indices d_lwe_a num_nonzero.
Proof.
  intros Hbd Hs Hs'. unfold sparse_blind_rotation_kernel.
  cbn [blockDim_x s_acc_init]. cbv zeta.
  replace (block_copy blockDim d_acc s_init')
    with (block_copy blockDim d_acc s_init); [reflexivity|].
  apply same_loads_same_array.
  - now rewrite !block_copy_length, Hs, Hs'.
  - rewrite block_copy_length, Hs. intros j Hj.
    assert (HN : 0 <= N) by (unfold N; lia).
    rewrite !block_copy_loaded by (assumption || lia). reflexivity.
Qed.

Lemma kernel_ignores_initial_shared_memory_witness :
  0 < 256 /\
  length (repeat 0 (Z.to_nat N)) = Z.to_nat N /\
  length iota_acc = Z.to_nat N /\
  sparse_blind_rotation_kernel (Launch 256 (repeat 0 (Z.to_nat N))) iota_acc
                               [0xAAAAAAAA] [0] [1] 1
  = sparse_blind_rotation_kernel (Launch 256 iota_acc) iota_acc
                                 [0xAAAAAAAA] [0] [1] 1.
Proof.
  assert (H0 : 0 < 256) by lia.
  assert (H1 : length (repeat 0 (Z.to_nat N)) = Z.to_nat N)
    by apply repeat_length.
  split; [exact H0|]. split; [exact H1|]. split; [exact iota_acc_length|].
  exact (kernel_ignores_initial_shared_memory 256 _ _ iota_acc [0xAAAAAAAA]
           [0] [1] 1 H0 H1 iota_acc_length).
Defined.

(** Loading the accumulator and writing it straight back restores it. *)
Lemma block_copy_round_trip blockDim d_acc s_init :
  length s_init = Z.to_nat N ->
  block_copy blockDim (block_copy blockDim d_acc s_init) d_acc = d_acc.
Proof.
  intros Hlen. unfold block_copy at 1.
  apply copy_rounds_equal. intros k i Hk Hi.
  pose proof (round_indices_bounds _ _ _ Hi) as Hb.
  unfold block_copy. apply (copy_rounds_set _ _ _ _ k); [assumption..|].
  rewrite Hlen. lia.
Qed.

Lemma steps_of_multiples blockDim d_bk d_nonzero_indices d_lwe_a
    (steps : list nat) s_acc :
  (forall step, step ∈ steps -> load d_lwe_a (Z.of_nat step) mod N = 0) ->
  fold_left (blind_rotation_step blockDim d_bk d_nonzero_indices d_lwe_a)
            steps s_acc = s_acc.
Proof.
  induction steps as [|step steps IH]; intros H; [reflexivity|].
  cbn [fold_left]. unfold blind_rotation_step at 2. cbv zeta.
  rewrite rotation_amount_multiple by (apply H, list_elem_of_here).
  rewrite apply_rotation_0. apply IH. intros step' Hin.
  apply H. now apply list_elem_of_further.
Qed.

(** X7: when every sample the kernel uses is a multiple of N the whole
    kernel returns the accumulator unchanged, whatever the count, the key
    and the block size are (a count below 0 runs no step at all and is the
    same as 0). *)
Theorem kernel_of_multiples_is_identity cfg d_acc d_bk d_nonzero_indices
    d_lwe_a num_nonzero :
  length (s_acc_init cfg) = Z.to_nat N ->
  (forall step, (step < Z.to_nat num_nonzero)%nat ->
     load d_lwe_a (Z.of_nat step) mod N = 0) ->
  sparse_blind_rotation_kernel cfg d_acc d_bk d_nonzero_indices d_lwe_a
                               num_nonzero
  = d_acc.
Proof.
  intros Hlen H. unfold sparse_blind_rotation_kernel. cbv zeta.
  rewrite steps_of_multiples.
  - now apply block_copy_round_trip.
  - intros step Hin. apply list_elem_of_In, in_seq in Hin. apply H. lia.
Qed.

Lemma kernel_of_multiples_is_identity_witness :
  length (s_acc_init harness_launch) = Z.to_nat N /\
  sparse_blind_rotation_kernel harness_launch iota_acc [0x9] [0; 1]
                               [2048; -4096] 2 = iota_acc /\
  sparse_blind_rotation_kernel harness_launch iota_acc [0x9] [0; 1]
                               [7; 8] (-3) = iota_acc.
Proof.
  assert (H : length (s_acc_init harness_launch) = Z.to_nat N)
    by apply repeat_length.
  split; [exact H|]. split.
  - apply (kernel_of_multiples_is_identity harness_launch); [exact H|].
    intros step Hstep. change (Z.to_nat 2) with 2%nat in Hstep.
    destruct step as [|[|step]]; [reflexivity.. | lia].
  - apply (kernel_of_multiples_is_identity harness_launch); [exact H|].
    intros step Hstep. change (Z.to_nat (-3)) with 0%nat in Hstep. lia.
Defined.

(** ** Values are only moved and negated *)

Section ClosedValues.
Variable Q : Z -> Prop.
Hypothesis Q_negation : forall v, Q v -> Q (to_int64 (- v)).

Lemma stores_closed (f : Z -> Z) (idx : list Z) : forall s,
  Forall Q s -> (forall i, i ∈ idx -> Q (f i)) ->
  Forall Q (fold_left (fun d i => store d i (f i)) idx s).
Proof.
  induction idx as [|i idx IH]; intros s Hs Hf; [exact Hs|].
  cbn [fold_left]. apply IH.
  - apply Forall_insert; [exact Hs | apply Hf, list_elem_of_here].
  - intros i' Hi'. apply Hf. now apply list_elem_of_further.
Qed.

Lemma lane_new_val_closed rot s_acc i :
  Forall Q s_acc -> length s_acc = Z.to_nat N ->
  0 <= rot < N -> 0 <= i < N ->
  Q (lane_new_val s_acc (rotation_lane rot i)).
Proof using Q_negation.
  intros Hs Hlen Hrot Hi.
  assert (Hload : forall j, 0 <= j < N -> Q (load s_acc j)).
  { intros j Hj. unfold load. apply Forall_lookup_total_1; [exact Hs | lia]. }
  unfold rotation_lane. cbv zeta.
  destruct (Z.ltb_spec (i - rot) 0); unfold lane_new_val;
    cbn [lane_src_idx lane_sign].
  - change (-1 =? -1) with true. cbv iota. apply Q_negation, Hload. lia.
  - change (1 =? -1) with false. cbv iota. apply Hload. lia.
Qed.

Lemma apply_rotation_closed blockDim rot s_acc :
  Forall Q s_acc -> length s_acc = Z.to_nat N -> 0 <= rot < N ->
  Forall Q (apply_rotation blockDim rot s_acc).
Proof using Q_negation.
  intros Hs Hlen Hrot.
  change (apply_rotation blockDim rot s_acc)
    with (rounds_before rot blockDim s_acc (round_count blockDim)).
  induction (round_count blockDim) as [|k IH]; [exact Hs|].
  rewrite rounds_before_succ, rotation_round_as_stores.
  apply stores_closed; [exact IH|]. intros i Hi.
  apply round_indices_bounds in Hi.
  apply lane_new_val_closed;
    [exact IH | now rewrite rounds_before_length | assumption..].
Qed.

Lemma rotation_amount_range s_i a_i : 0 <= rotation_amount s_i a_i < N.
Proof.
  rewrite rotation_amount_mod. apply Z.mod_pos_bound. unfold N. lia.
Qed.

Lemma steps_closed blockDim d_bk d_nonzero_indices d_lwe_a
    (steps : list nat) : forall s_acc,
  Forall Q s_acc -> length s_acc = Z.to_nat N ->
  Forall Q (fold_left (blind_rotation_step blockDim d_bk d_nonzero_indices
                                           d_lwe_a) steps s_acc).
Proof using Q_negation.
  induction steps as [|step steps IH]; intros s_acc Hs Hlen; [exact Hs|].
  cbn [fold_left]. apply IH.
  - apply apply_rotation_closed;
      [assumption.. | apply rotation_amount_range].
  - unfold blind_rotation_step. now rewrite apply_rotation_length.
Qed.

(** X8: the kernel only moves values and negates them: a property of
    values that survives the 64-bit negation and holds for every element
    of the accumulator before the call holds for every element after it,
    whatever the key, the indices, the samples and the count are. *)
Theorem kernel_values_closed cfg d_acc d_bk d_nonzero_indices d_lwe_a
    num_nonzero :
  0 < blockDim_x cfg -> length (s_acc_init cfg) = Z.to_nat N ->
  length d_acc = Z.to_nat N -> Forall Q d_acc ->
  Forall Q (sparse_blind_rotation_kernel cfg d_acc d_bk d_nonzero_indices
                                         d_lwe_a num_nonzero).
Proof using Q_negation.
  intros Hbd Hs Hd HQ. rewrite kernel_runs_the_steps by assumption.
  now apply steps_closed.
Qed.
End ClosedValues.

Lemma unit_values_negation v :
  v = 1 \/ v = -1 -> to_int64 (- v) = 1 \/ to_int64 (- v) = -1.
Proof. intros [-> | ->]; [right | left]; reflexivity. Qed.

Lemma kernel_values_closed_witness :
  0 < blockDim_x harness_launch /\
  length (s_acc_init harness_launch) = Z.to_nat N /\
  length h_acc = Z.to_nat N /\
  Forall (fun v => v = 1 \/ v = -1) h_acc /\
  Forall (fun v => v = 1 \/ v = -1)
         (sparse_blind_rotation_kernel harness_launch h_acc [0xAAAAAAAA]
                                       [0; 3] [700; 1999] 2).
Proof.
  assert (H0 : 0 < blockDim_x harness_launch) by reflexivity.
  assert (H1 : length (s_acc_init harness_launch) = Z.to_nat N)
    by apply repeat_length.
  assert (H2 : length h_acc = Z.to_nat N) by apply length_replicate.
  assert (H3 : Forall (fun v => v = 1 \/ v = -1) h_acc)
    by (apply Forall_replicate; now left).
  split; [exact H0|]. split; [exact H1|]. split; [exact H2|].
  split; [exact H3|].
  exact (kernel_values_closed _ unit_values_negation harness_launch h_acc
           [0xAAAAAAAA] [0; 3] [700; 1999] 2 H0 H1 H2 H3).
Defined.

(** ** Splitting the steps over two launches *)

Lemma fold_left_map {A B C} (f : A -> B -> A) (g : C -> B) (l : list C) :
  forall a, fold_left f (map g l) a = fold_left (fun a x => f a (g x)) l a.
Proof. induction l as [|x l IH]; intros a; [reflexivity | apply IH]. Qed.

Lemma load_drop (l : list Z) (n k : nat) :
  load (drop n l) (Z.of_nat k) = load l (Z.of_nat (n + k)).
Proof. unfold load. rewrite !Nat2Z.id. apply lookup_total_drop. Qed.

(** The steps from [n] on of the arrays are the steps from 0 on of the
    arrays without their first [n] entries. *)
Lemma later_steps_on_dropped_arrays blockDim d_bk d_nonzero_indices d_lwe_a
    (n m : nat) s_acc :
  fold_left (blind_rotation_step blockDim d_bk d_nonzero_indices d_lwe_a)
            (seq n m) s_acc
  = fold_left (blind_rotation_step blockDim d_bk (drop n d_nonzero_indices)
                                   (drop n d_lwe_a))
              (seq 0 m) s_acc.
Proof.
  rewrite <- (Nat.add_0_r n) at 1. rewrite <- fmap_add_seq.
  change (fmap (Nat.add n)) with (map (Nat.add n)). rewrite fold_left_map.
  apply fold_left_ext_in. intros s k _.
  unfold blind_rotation_step. cbv zeta. now rewrite !load_drop.
Qed.

(** X9: the steps of one launch can be split over two: running the first
    [n] steps in one launch and the next [m] steps, with the index and
    sample arrays advanced by [n], in a second launch on the result gives
    what a single launch with [n + m] steps gives. *)
Theorem kernel_launches_compose cfg d_acc d_bk d_nonzero_indices d_lwe_a n m :
  0 < blockDim_x cfg -> length (s_acc_init cfg) = Z.to_nat N ->
  length d_acc = Z.to_nat N -> 0 <= n -> 0 <= m ->
  sparse_blind_rotation_kernel cfg
    (sparse_blind_rotation_kernel cfg d_acc d_bk d_nonzero_indices d_lwe_a n)
    d_bk (drop (Z.to_nat n) d_nonzero_indices) (drop (Z.to_nat n) d_lwe_a) m
  = sparse_blind_rotation_kernel cfg d_acc d_bk d_nonzero_indices d_lwe_a
                                 (n + m).
Proof.
  intros Hbd Hs Hd Hn Hm.
  rewrite (kernel_runs_the_steps cfg d_acc _ _ _ n) by assumption.
  rewrite (kernel_runs_the_steps cfg d_acc _ _ _ (n + m)) by assumption.
  rewrite kernel_runs_the_steps
    by (rewrite ?steps_length; assumption).
  rewrite Z2Nat.inj_add by assumption.
  rewrite seq_app, fold_left_app. cbn [Nat.add].
  symmetry. apply later_steps_on_dropped_arrays.
Qed.

Lemma kernel_launches_compose_witness :
  0 < blockDim_x harness_launch /\
  length (s_acc_init harness_launch) = Z.to_nat N /\
  length iota_acc = Z.to_nat N /\ 0 <= 1 /\ 0 <= 2 /\
  sparse_blind_rotation_kernel harness_launch
    (sparse_blind_rotation_kernel harness_launch iota_acc [0x19] [0; 1; 2]
                                  [5; 6; 7] 1)
    [0x19] (drop (Z.to_nat 1) [0; 1; 2]) (drop (Z.to_nat 1) [5; 6; 7]) 2
  = sparse_blind_rotation_kernel harness_launch iota_acc [0x19] [0; 1; 2]
                                 [5; 6; 7] (1 + 2).
Proof.
  assert (H0 : 0 < blockDim_x harness_launch) by reflexivity.
  assert (H1 : length (s_acc_init harness_launch) = Z.to_nat N)
    by apply repeat_length.
  assert (Hn : 0 <= 1) by lia. assert (Hm : 0 <= 2) by lia.
  split; [exact H0|]. split; [exact H1|]. split; [exact iota_acc_length|].
  split; [exact Hn|]. split; [exact Hm|].
  exact (kernel_launches_compose harness_launch iota_acc [0x19] [0; 1; 2]
           [5; 6; 7] 1 2 H0 H1 iota_acc_length Hn Hm).
Defined.

(** ** Where the in-place rotation is the specified one *)


Lemma iota_acc_values i :
  0 <= i < N -> - 2 ^ 63 < load iota_acc i /\ is_int64 (load iota_acc i).
Proof.
  intros Hi. rewrite load_iota_acc by assumption.
  unfold is_int64, N in *. lia.
Qed.


Lemma rotation_lane_src_range rot j :
  0 <= rot < N -> 0 <= j < N -> 0 <= lane_src_idx (rotation_lane rot j) < N.
Proof.
  intros Hrot Hj. unfold rotation_lane. cbv zeta.
  destruct (Z.ltb_spec (j - rot) 0); cbn [lane_src_idx]; lia.
Qed.

(** X11: what the in-place rotation computes, for any block size.
    Element [j] of the result is the rotated (and, on a wrap, negated)
    value of its source element, read from the result itself when the
    source index belongs to an earlier round than [j], and from the old
    accumulator otherwise. *)
Theorem in_place_rotation_recurrence blockDim rot s_acc j :
  0 < blockDim -> 0 <= rot < N -> 0 <= j < N ->
  length s_acc = Z.to_nat N ->
  let src_idx := lane_src_idx (rotation_lane rot j) in
  load (apply_rotation blockDim rot s_acc) j
  = lane_new_val (if src_idx / blockDim <? j / blockDim
                  then apply_rotation blockDim rot s_acc else s_acc)
                 (rotation_lane rot j).
Proof.
  intros Hbd Hrot Hj Hlen src_idx.
  pose proof (rotation_lane_src_range rot j Hrot Hj) as Hsrc.
  fold src_idx in Hsrc.
  rewrite apply_rotation_load by lia.
  assert (E : load (rounds_before rot blockDim s_acc
                                  (Z.to_nat (j / blockDim))) src_idx
              = load (if src_idx / blockDim <? j / blockDim
                      then apply_rotation blockDim rot s_acc else s_acc)
                     src_idx).
  { rewrite rounds_before_load by lia.
    assert (0 <= src_idx / blockDim) by (apply Z.div_pos; lia).
    assert (0 <= j / blockDim) by (apply Z.div_pos; lia).
    destruct (Z.ltb_spec (src_idx / blockDim) (j / blockDim)),
             (Nat.ltb_spec (Z.to_nat (src_idx / blockDim))
                           (Z.to_nat (j / blockDim)));
      [now rewrite apply_rotation_load by lia | lia | lia | reflexivity]. }
  unfold lane_new_val. fold src_idx. now rewrite E.
Qed.

Lemma in_place_rotation_recurrence_witness :
  0 < 256 /\ 0 <= 1 < N /\ 0 <= 256 < N /\ length iota_acc = Z.to_nat N /\
  load (apply_rotation 256 1 iota_acc) 256
  = lane_new_val (if lane_src_idx (rotation_lane 1 256) / 256 <? 256 / 256
                  then apply_rotation 256 1 iota_acc else iota_acc)
                 (rotation_lane 1 256).
Proof.
  assert (H0 : 0 < 256) by lia.
  assert (H1 : 0 <= 1 < N) by (unfold N; lia).
  assert (H2 : 0 <= 256 < N) by (unfold N; lia).
  split; [exact H0|]. split; [exact H1|]. split; [exact H2|].
  split; [exact iota_acc_length|].
  exact (in_place_rotation_recurrence 256 1 iota_acc 256 H0 H1 H2
           iota_acc_length).
Defined.

(** Computed from the old accumulator, a lane's value is the specified
    one. *)
Lemma lane_new_val_is_specified rot s_acc j :
  0 <= rot < N -> 0 <= j < N ->
  (forall i, 0 <= i < N -> - 2 ^ 63 < load s_acc i /\ is_int64 (load s_acc i)) ->
  lane_new_val s_acc (rotation_lane rot j)
  = load (negacyclic_rotation_spec rot s_acc) j.
Proof.
  intros Hrot Hj Hval. rewrite spec_rotation_load by assumption.
  unfold rotation_lane. cbv zeta.
  destruct (Z.ltb_spec (j - rot) 0); unfold lane_new_val;
    cbn [lane_src_idx lane_sign].
  - change (-1 =? -1) with true. cbv iota.
    replace ((j - rot) mod N) with (j - rot + N)
      by (apply Z.mod_unique_pos with (q := -1); lia).
    apply to_int64_opp; apply Hval; lia.
  - change (1 =? -1) with false. cbv iota.
    now rewrite Z.mod_small by lia.
Qed.

(** X12: for any block size, an element is rotated as specified whenever
    its source index does not belong to an earlier round than the element
    itself; this is the case for every element whose source wraps below 0,
    so the negated elements are always the specified ones. *)
Theorem rotation_right_where_source_is_not_earlier blockDim rot s_acc j :
  0 < blockDim -> 0 <= rot < N -> 0 <= j < N ->
  length s_acc = Z.to_nat N ->
  (forall i, 0 <= i < N -> - 2 ^ 63 < load s_acc i /\ is_int64 (load s_acc i)) ->
  (j / blockDim <= lane_src_idx (rotation_lane rot j) / blockDim ->
   load (apply_rotation blockDim rot s_acc) j
   = load (negacyclic_rotation_spec rot s_acc) j) /\
  (j < rot ->
   load (apply_rotation blockDim rot s_acc) j
   = load (negacyclic_rotation_spec rot s_acc) j).
Proof.
  intros Hbd Hrot Hj Hlen Hval.
  assert (Hmain : j / blockDim <= lane_src_idx (rotation_lane rot j) / blockDim ->
                  load (apply_rotation blockDim rot s_acc) j
                  = load (negacyclic_rotation_spec rot s_acc) j).
  { intros Hround.
    pose proof (rotation_lane_src_range rot j Hrot Hj) as Hsrc.
    rewrite apply_rotation_load by lia.
    rewrite <- lane_new_val_is_specified by assumption.
    unfold lane_new_val. rewrite rounds_before_load by lia.
    assert (0 <= j / blockDim) by (apply Z.div_pos; lia).
    destruct (Nat.ltb_spec
                (Z.to_nat (lane_src_idx (rotation_lane rot j) / blockDim))
                (Z.to_nat (j / blockDim))); [lia | reflexivity]. }
  split; [exact Hmain|]. intros Hwrap. apply Hmain.
  unfold rotation_lane. cbv zeta.
  destruct (Z.ltb_spec (j - rot) 0); [|lia]. cbn [lane_src_idx].
  apply Z.div_le_mono; lia.
Qed.

Lemma rotation_right_where_source_is_not_earlier_witness :
  0 < 256 /\ 0 <= 700 < N /\ 0 <= 300 < N /\ length iota_acc = Z.to_nat N /\
  300 < 700 /\
  load (apply_rotation 256 700 iota_acc) 300
  = load (negacyclic_rotation_spec 700 iota_acc) 300.
Proof.
  assert (H0 : 0 < 256) by lia.
  assert (H1 : 0 <= 700 < N) by (unfold N; lia).
  assert (H2 : 0 <= 300 < N) by (unfold N; lia).
  assert (H3 : 300 < 700) by lia.
  split; [exact H0|]. split; [exact H1|]. split; [exact H2|].
  split; [exact iota_acc_length|]. split; [exact H3|].
  exact (proj2 (rotation_right_where_source_is_not_earlier 256 700 iota_acc
                  300 H0 H1 H2 iota_acc_length iota_acc_values) H3).
Defined.

(** ** Reads of overwritten elements, for any launch *)






(** A read that follows a write to the same index is reported. *)
Lemma stale_reads_intro (t1 : list access) : forall written t2 x,
  In x written \/ In (SWrite x) t1 ->
  In x (stale_reads written (t1 ++ SRead x :: t2)).
Proof.
  induction t1 as [|a t1 IH]; intros written t2 x H.
  - destruct H as [H|[]]. cbn [app stale_reads].
    assert (E : existsb (Z.eqb x) written = true).
    { apply existsb_exists. exists x. split; [exact H | apply Z.eqb_refl]. }
    rewrite E. now left.
  - destruct a as [y|y|]; cbn [app stale_reads].
    + assert (Hin : In x (stale_reads written (t1 ++ SRead x :: t2))).
      { apply IH. destruct H as [H|[H|H]]; [now left | discriminate H | now right]. }
      destruct (existsb (Z.eqb y) written); [now right | exact Hin].
    + apply IH. destruct H as [H|[H|H]].
      * left. now right.
      * left. left. congruence.
      * now right.
    + apply IH. destruct H as [H|[H|H]]; [now left | discriminate H | now right].
Qed.

(** X14: launched with fewer than N threads, every rotation by an amount
    other than 0 reads some element of the shared array after an earlier
    round has written it. *)
Theorem fewer_threads_always_read_stale blockDim rot :
  0 < blockDim < N -> 0 < rot < N ->
  stale_reads [] (rotation_trace blockDim rot) <> [].
Proof.
  intros Hbd Hrot.
  set (j := Z.max rot blockDim). set (src := j - rot).
  assert (Hj : 0 <= j < N) by lia.
  assert (Hsrc : 0 <= src < blockDim) by lia.
  assert (Hlane : rotation_lane rot j = Lane j src 1).
  { unfold rotation_lane. cbv zeta. fold src.
    destruct (Z.ltb_spec src 0); [lia | reflexivity]. }
  set (k := Z.to_nat (j / blockDim)).
  assert (Hk1 : (1 <= k)%nat).
  { assert (1 <= j / blockDim) by (apply Z.div_le_lower_bound; lia). lia. }
  pose proof (round_of_index_lt_count blockDim ltac:(lia) j Hj) as Hk.
  fold k in Hk.
  assert (Hin_j : j ∈ round_indices blockDim k)
    by (apply elem_of_round_indices; [lia | now split]).
  assert (Hin_src : src ∈ round_indices blockDim 0).
  { apply elem_of_round_indices; [lia|]. split; [lia|].
    now rewrite Z.div_small by lia. }
  (* the trace up to the round of [j], that round, and the rest *)
  unfold rotation_trace.
  replace (round_count blockDim) with (k + S (round_count blockDim - S k))%nat
    by lia.
  rewrite seq_app, flat_map_app. cbn [Nat.add seq flat_map].
  (* the read of [src] by the thread of [j] *)
  apply list_elem_of_In, (in_map (rotation_lane rot)), in_split in Hin_j
    as (l1 & l2 & Hsplit).
  unfold round_trace at 2. cbv zeta. rewrite Hsplit, Hlane.
  rewrite map_app. cbn [map lane_src_idx]. rewrite <- !app_assoc.
  cbn [app]. rewrite app_assoc.
  match goal with
  | |- stale_reads [] ?t <> [] => assert (Hstale : In src (stale_reads [] t))
  end.
  { apply stale_reads_intro. right. apply in_or_app. left.
    apply in_flat_map. exists 0%nat. split; [apply in_seq; lia|].
    unfold round_trace. cbv zeta.
    apply in_or_app. right. apply in_or_app. right. apply in_or_app. left.
    apply in_map_iff. exists (rotation_lane rot src). split.
    - now rewrite rotation_lane_i.
    - apply in_map. now apply list_elem_of_In. }
  intros Hnil. rewrite Hnil in Hstale. exact Hstale.
Qed.

Lemma fewer_threads_always_read_stale_witness :
  0 < 256 < N /\ 0 < 1 < N /\ stale_reads [] (rotation_trace 256 1) <> [].
Proof.
  assert (H0 : 0 < 256 < N) by (unfold N; lia).
  assert (H1 : 0 < 1 < N) by (unfold N; lia).
  split; [exact H0|]. split; [exact H1|].
  exact (fewer_threads_always_read_stale 256 1 H0 H1).
Defined.

(** X15: launched with fewer than N threads, no rotation by an amount
    other than 0 is the specified one on every accumulator: on the
    accumulator 0, 1, ..., N-1 the kernel's rotation differs from the
    specified rotation, for every such block size and amount. *)
Theorem fewer_threads_never_rotate_as_specified blockDim rot :
  0 < blockDim < N -> 0 < rot < N ->
  apply_rotation blockDim rot iota_acc <> negacyclic_rotation_spec rot iota_acc.
Proof.
  intros Hbd Hrot Heq.
  set (j := Z.max rot blockDim). set (src := j - rot).
  assert (Hj : 0 <= j < N) by lia.
  assert (Hsrc : 0 <= src < blockDim) by lia.
  assert (Hk : 1 <= j / blockDim) by (apply Z.div_le_lower_bound; lia).
  assert (Hlen : (Z.to_nat N = length iota_acc)%nat)
    by (symmetry; apply iota_acc_length).
  apply (f_equal (fun l => load l j)) in Heq. revert Heq.
  rewrite spec_rotation_load by assumption. fold src.
  destruct (Z.ltb_spec src 0); [lia|].
  rewrite Z.mod_small, load_iota_acc by lia.
  rewrite apply_rotation_load by lia.
  unfold rotation_lane at 1. cbv zeta. fold src.
  destruct (Z.ltb_spec src 0); [lia|].
  unfold lane_new_val at 1. cbn [lane_src_idx lane_sign].
  change (1 =? -1) with false. cbv iota.
  rewrite rounds_before_load by lia.
  rewrite (Z.div_small src) by lia. change (Z.to_nat 0) with 0%nat.
  destruct (Nat.ltb_spec 0 (Z.to_nat (j / blockDim))); [|lia].
  unfold rounds_before. cbn [seq fold_left]. unfold rotation_lane. cbv zeta.
  destruct (Z.ltb_spec (src - rot) 0); unfold lane_new_val;
    cbn [lane_src_idx lane_sign].
  - change (-1 =? -1) with true. cbv iota.
    rewrite load_iota_acc by lia.
    rewrite to_int64_opp by (unfold is_int64, N in *; lia). lia.
  - change (1 =? -1) with false. cbv iota.
    rewrite load_iota_acc by lia. lia.
Qed.

Lemma fewer_threads_never_rotate_as_specified_witness :
  0 < 1024 < N /\ 0 < 2047 < N /\
  apply_rotation 1024 2047 iota_acc <> negacyclic_rotation_spec 2047 iota_acc.
Proof.
  assert (H0 : 0 < 1024 < N) by (unfold N; lia).
  assert (H1 : 0 < 2047 < N) by (unfold N; lia).
  split; [exact H0|]. split; [exact H1|].
  exact (fewer_threads_never_rotate_as_specified 1024 2047 H0 H1).
Defined.

(** ** The harness *)

Lemma harness_word_codes index :
  0 <= index < PACKING_FACTOR -> trit_code 0xAAAAAAAA index = 2.
Proof.
  unfold PACKING_FACTOR. intros H.
  rewrite <- (Z2Nat.id index) by lia.
  assert (Hn : (Z.to_nat index < 16)%nat) by lia.
  revert Hn. generalize (Z.to_nat index) as n. intros n Hn.
  do 16 (destruct n as [|n]; [reflexivity|]). lia.
Qed.

(** Every position the harness key has room for decodes to -1. *)
Lemma harness_key_trit lwe_idx :
  0 <= lwe_idx < PACKING_FACTOR * Z.of_nat (length h_bk) ->
  step_key_trit h_bk lwe_idx = -1.
Proof.
  unfold h_bk. rewrite length_replicate. unfold PACKING_FACTOR, lwe_dim.
  change (Z.to_nat (Z.quot 630 16 + 1)) with 40%nat. intros H.
  unfold step_key_trit, PACKING_FACTOR. cbv zeta.
  assert (Hq : 0 <= Z.quot lwe_idx 16 < 40)
    by (Z.to_euclidean_division_equations; lia).
  assert (Hr : 0 <= Z.rem lwe_idx 16 < 16)
    by (Z.to_euclidean_division_equations; lia).
  unfold load. rewrite lookup_total_replicate_2 by lia.
  rewrite unpack_trit_by_code by exact Hr.
  now rewrite harness_word_codes by exact Hr.
Qed.

Lemma load_h_indices step :
  (step < Z.to_nat main_num_nonzero)%nat ->
  load h_indices (Z.of_nat step) = Z.of_nat step * 2.
Proof.
  intros H. unfold load, h_indices. rewrite Nat2Z.id.
  apply list_lookup_total_correct.
  change map with (@fmap list _).
  rewrite list_lookup_fmap, lookup_seq_lt by exact H. reflexivity.
Qed.

Lemma load_h_lwe_a rand step :
  (step < Z.to_nat main_num_nonzero)%nat ->
  load (h_lwe_a rand) (Z.of_nat step) = Z.rem (rand step) N.
Proof.
  intros H. unfold load, h_lwe_a. rewrite Nat2Z.id.
  apply list_lookup_total_correct.
  change map with (@fmap list _).
  rewrite list_lookup_fmap, lookup_seq_lt by exact H. reflexivity.
Qed.

(** X16: the data [main] sets up meets what the kernel relies on, for
    every outcome of [rand()]: each of the 128 key positions is even and
    below [lwe_dim], lies inside the key buffer, decodes to the nonzero trit
    -1, and comes with a sample in [0, N); so each step rotates by exactly
    its sample. *)
Theorem harness_steps_are_well_formed (rand : nat -> Z) step :
  (forall i, 0 <= rand i) -> (step < Z.to_nat main_num_nonzero)%nat ->
  let lwe_idx := load h_indices (Z.of_nat step) in
  let a_i := load (h_lwe_a rand) (Z.of_nat step) in
  lwe_idx = 2 * Z.of_nat step /\ 0 <= lwe_idx < lwe_dim /\
  (Z.to_nat (Z.quot lwe_idx PACKING_FACTOR) < length h_bk)%nat /\
  step_key_trit h_bk lwe_idx = -1 /\
  0 <= a_i < N /\
  forall blockDim s_acc,
    blind_rotation_step blockDim h_bk h_indices (h_lwe_a rand) s_acc step
    = apply_rotation blockDim a_i s_acc.
Proof.
  intros Hrand Hstep lwe_idx a_i.
  assert (Hidx : lwe_idx = 2 * Z.of_nat step)
    by (unfold lwe_idx; rewrite load_h_indices by exact Hstep; lia).
  assert (Ha : a_i = Z.rem (rand step) N) by now apply load_h_lwe_a.
  change (Z.to_nat main_num_nonzero) with 128%nat in Hstep.
  assert (Hlen : length h_bk = 40%nat) by apply length_replicate.
  assert (Hkey : step_key_trit h_bk lwe_idx = -1).
  { apply harness_key_trit. rewrite Hlen. unfold PACKING_FACTOR. lia. }
  assert (Hrange : 0 <= a_i < N).
  { rewrite Ha. apply Z.rem_bound_pos; [apply Hrand | unfold N; lia]. }
  split; [exact Hidx|]. split; [unfold lwe_dim; lia|].
  split.
  { rewrite Hlen. unfold PACKING_FACTOR.
    Z.to_euclidean_division_equations. lia. }
  split; [exact Hkey|]. split; [exact Hrange|].
  intros blockDim s_acc. unfold blind_rotation_step. cbv zeta.
  fold lwe_idx a_i. rewrite Hkey, rotation_amount_mod.
  change (-1 =? 1) with false. cbv iota. now rewrite Z.mod_small.
Qed.

Lemma harness_steps_are_well_formed_witness :
  (forall i, 0 <= Z.of_nat i * 1103515245) /\
  (127 < Z.to_nat main_num_nonzero)%nat /\
  step_key_trit h_bk (load h_indices (Z.of_nat 127)) = -1.
Proof.
  assert (H0 : forall i, 0 <= Z.of_nat i * 1103515245) by (intros i; lia).
  assert (H1 : (127 < Z.to_nat main_num_nonzero)%nat)
    by (change (Z.to_nat main_num_nonzero) with 128%nat; lia).
  split; [exact H0|]. split; [exact H1|].
  exact (proj1 (proj2 (proj2 (proj2
           (harness_steps_are_well_formed
              (fun i => Z.of_nat i * 1103515245) 127 H0 H1))))).
Defined.

(** X17: the accumulator of [main] starts as all ones and, after any
    number of launches and for every outcome of [rand()], still has N
    elements, each of them 1 or -1; so it has when [main] frees it after
    the warm-up and the 1000 timed launches. *)
Theorem main_accumulator_stays_unit (rand : nat -> Z) :
  (forall launches,
     length (main_launches rand launches) = Z.to_nat N /\
     Forall (fun v => v = 1 \/ v = -1) (main_launches rand launches)) /\
  Forall (fun v => v = 1 \/ v = -1) (main_d_acc rand).
Proof.
  assert (H : forall launches,
            length (main_launches rand launches) = Z.to_nat N /\
            Forall (fun v => v = 1 \/ v = -1) (main_launches rand launches)).
  { induction launches as [|n [IHlen IHunit]].
    - split; [apply length_replicate | apply Forall_replicate; now left].
    - change (main_launches rand (S n))
        with (launch_kernel rand (main_launches rand n)).
      unfold launch_kernel.
      rewrite kernel_runs_the_steps
        by (reflexivity || apply repeat_length || exact IHlen).
      split.
      + now rewrite steps_length.
      + apply steps_closed;
          [exact unit_values_negation | exact IHunit | exact IHlen]. }
  split; [exact H|]. apply H.
Qed.

(** ** The layout of the packed key *)

Lemma pow4_split index :
  0 <= index < 16 -> 2 ^ 32 = 4 ^ index * (4 * 4 ^ (15 - index)).
Proof.
  intros H. replace (4 * 4 ^ (15 - index)) with (4 ^ (16 - index)).
  - rewrite <- Z.pow_add_r by lia.
    replace (index + (16 - index)) with 16 by lia. reflexivity.
  - replace (16 - index) with (Z.succ (15 - index)) by lia.
    apply Z.pow_succ_r. lia.
Qed.

(** X18: the key buffer is read as one string of 2-bit codes, 16 per
    32-bit word, lowest field first: the step at key position [lwe_idx]
    decodes the code [(key / 4 ^ lwe_idx) mod 4] of the buffer taken as one
    little-endian number, for every position the buffer holds. *)
Theorem key_is_read_as_flat_codes d_bk lwe_idx :
  Forall (fun word => 0 <= word < 2 ^ 32) d_bk ->
  0 <= lwe_idx < PACKING_FACTOR * Z.of_nat (length d_bk) ->
  let code := (key_value d_bk / 4 ^ lwe_idx) mod 4 in
  trit_code (load d_bk (Z.quot lwe_idx PACKING_FACTOR))
            (Z.rem lwe_idx PACKING_FACTOR) = code /\
  step_key_trit d_bk lwe_idx = if code =? 2 then -1 else code.
Proof.
  unfold PACKING_FACTOR.
  assert (Hcode : forall idx,
            Forall (fun word => 0 <= word < 2 ^ 32) d_bk ->
            0 <= idx < 16 * Z.of_nat (length d_bk) ->
            trit_code (load d_bk (Z.quot idx 16)) (Z.rem idx 16)
            = (key_value d_bk / 4 ^ idx) mod 4).
  { clear lwe_idx.
    induction d_bk as [|word rest IH]; intros idx Hwords Hidx.
    - cbn [length] in Hidx. lia.
    - apply Forall_cons in Hwords as [Hword Hrest].
      rewrite Z.quot_div_nonneg, Z.rem_mod_nonneg by lia.
      cbn [key_value].
      destruct (Z.lt_ge_cases idx 16) as [Hlow|Hhigh].
      + rewrite Z.div_small, Z.mod_small by lia.
        change (load (word :: rest) 0) with word. unfold trit_code.
        rewrite (pow4_split idx) by lia.
        assert (0 < 4 ^ idx) by (apply Z.pow_pos_nonneg; lia).
        replace (word + 4 ^ idx * (4 * 4 ^ (15 - idx)) * key_value rest)
          with (word + (4 ^ (15 - idx) * key_value rest * 4) * 4 ^ idx)
          by lia.
        rewrite Z.div_add by lia.
        now rewrite Z.mod_add by lia.
      + cbn [length] in Hidx.
        specialize (IH (idx - 16) Hrest ltac:(lia)).
        rewrite Z.quot_div_nonneg, Z.rem_mod_nonneg in IH by lia.
        replace (idx / 16) with ((idx - 16) / 16 + 1)
          by (Z.to_euclidean_division_equations; lia).
        replace (idx mod 16) with ((idx - 16) mod 16)
          by (Z.to_euclidean_division_equations; lia).
        assert (Hq : 0 <= (idx - 16) / 16) by (apply Z.div_pos; lia).
        replace (load (word :: rest) ((idx - 16) / 16 + 1))
          with (load rest ((idx - 16) / 16)).
        2:{ unfold load.
            replace (Z.to_nat ((idx - 16) / 16 + 1))
              with (S (Z.to_nat ((idx - 16) / 16))) by lia.
            reflexivity. }
        rewrite IH. f_equal.
        replace (4 ^ idx) with (2 ^ 32 * 4 ^ (idx - 16)).
        2:{ change (2 ^ 32) with (4 ^ 16). rewrite <- Z.pow_add_r by lia.
            f_equal. lia. }
        assert (0 < 4 ^ (idx - 16)) by (apply Z.pow_pos_nonneg; lia).
        rewrite <- Z.div_div by lia. f_equal.
        replace (word + 2 ^ 32 * key_value rest)
          with (word + key_value rest * 2 ^ 32) by lia.
        rewrite Z.div_add by lia. rewrite Z.div_small by lia. lia. }
  intros Hwords Hidx.
  pose proof (Hcode lwe_idx Hwords Hidx) as E.
  split; [exact E|].
  unfold step_key_trit, PACKING_FACTOR. cbv zeta.
  rewrite unpack_trit_by_code
    by (unfold PACKING_FACTOR; Z.to_euclidean_division_equations; lia).
  now rewrite E.
Qed.

Lemma key_is_read_as_flat_codes_witness :
  Forall (fun word => 0 <= word < 2 ^ 32) [0xAAAAAAAA; 0x00000019] /\
  0 <= 17 < PACKING_FACTOR * Z.of_nat (length [0xAAAAAAAA; 0x00000019]) /\
  step_key_trit [0xAAAAAAAA; 0x00000019] 17
  = if (key_value [0xAAAAAAAA; 0x00000019] / 4 ^ 17) mod 4 =? 2 then -1
    else (key_value [0xAAAAAAAA; 0x00000019] / 4 ^ 17) mod 4.
Proof.
  assert (H0 : Forall (fun word => 0 <= word < 2 ^ 32)
                      [0xAAAAAAAA; 0x00000019])
    by (repeat constructor; lia).
  assert (H1 : 0 <= 17 < PACKING_FACTOR
                         * Z.of_nat (length [0xAAAAAAAA; 0x00000019]))
    by (unfold PACKING_FACTOR; cbn [length]; lia).
  split; [exact H0|]. split; [exact H1|].
  exact (proj2 (key_is_read_as_flat_codes [0xAAAAAAAA; 0x00000019] 17 H0 H1)).
Defined.

(** ** Composition of rotations, with enough threads *)







